(** * 2048-minimax: the board, its tiles and the move sweeps of [src/index.ts]

    A shallow embedding of the classes [Block] and [Board], of the helpers
    [assertRange] and [lerp], and of the frame function [draw].

    Modelling decisions.
    - JavaScript objects are shared: a [Block] is reached through references
      held in the cells of [Board.blocks], and one block can be referenced
      by several cells.  Blocks therefore live in a store ([heap]), a cell
      holds an optional reference into it, and every method reads and writes
      the store.
    - Grid coordinates and tile values are JavaScript numbers that only ever
      hold integers (they come from [Math.floor] and from [+1], [-1], [*2]);
      they are integers of [Z] here.  A tile value can outgrow binary64:
      [v * 2] is then [Infinity], which is represented by 2^1024, a number
      no finite binary64 value reaches.  The sum in the value of a spawned
      tile is rounded as binary64 rounds it.  The progress [delta] and the
      pixel offsets are rationals of [Q].
    - A thrown exception leaves the mutations made before it in place, so a
      result carries the store it was raised in.
    - [Math.random()] is an oracle: a stream of rationals read at a cursor. *)

From Stdlib Require Import ZArith QArith Qround Lia Lqa List Bool.
From Stdlib Require String.
From stdpp Require Import base option list.
Import String.StringSyntax.

Local Open Scope Z_scope.

(** ** Data *)

(** [const blockSize = 50]. *)
Definition blockSize : Z := 50.

(** The fields of [class Block]. *)
Record Block : Type := mkBlock {
  value   : Z;
  gridX   : Z;
  gridY   : Z;
  targetX : Z;
  targetY : Z;
  offsetX : Q;
  offsetY : Q
}.

(** A reference to a block object: its index in the store. *)
Definition ref : Type := nat.

(** [class Board]: [cols], [rows] and [blocks[col][row]]; [None] stands for
    the falsy contents of a cell ([null], [undefined]). *)
Record Board : Type := mkBoard {
  cols   : Z;
  rows   : Z;
  blocks : list (list (option ref))
}.

(** The store of block objects together with the one global [board]. *)
Record World : Type := mkWorld {
  heap  : list Block;
  board : Board
}.

(** What a call can throw: the [Error] of [assertRange], with the numbers
    of its message, and the [TypeError] of indexing [undefined]. *)
Inductive Error : Type :=
| RangeError (v min max : Z)
| TypeError.

(** The outcome of running a method: normal return, exception, or a loop
    that has not finished within the iterations it was allowed. *)
Inductive Res (A : Type) : Type :=
| Ok (a : A) (w : World)
| Throw (e : Error) (w : World)
| Diverge.
Arguments Ok {A} a w.
Arguments Throw {A} e w.
Arguments Diverge {A}.

Definition M (A : Type) : Type := World -> Res A.

Definition ret {A} (a : A) : M A := fun w => Ok a w.

Definition bind {A B} (m : M A) (k : A -> M B) : M B :=
  fun w => match m w with
           | Ok a w' => k a w'
           | Throw e w' => Throw e w'
           | Diverge => Diverge
           end.

Definition throw {A} (e : Error) : M A := fun w => Throw e w.

Notation "x <- m ;; k" := (bind m (fun x => k))
  (at level 100, m at next level, right associativity).
Notation "m ;;; k" := (bind m (fun _ => k))
  (at level 100, right associativity).

(** The world a run stopped in, when it stopped. *)
Definition final {A} (r : Res A) : option World :=
  match r with
  | Ok _ w => Some w
  | Throw _ w => Some w
  | Diverge => None
  end.

(** ** Numbers *)

(** [Infinity], as a tile value: 2^1024.  Every finite binary64 number
    is smaller in magnitude. *)
Definition Infinity : Z := 2 ^ 1024.

(** [v * 2] in binary64, for a number [v] that holds an integer or plus or
    minus [Infinity]: doubling only raises the exponent, so it is exact
    as long as the result is below 2^1024 in magnitude, and it is plus or
    minus [Infinity] from there on ([Infinity * 2] is [Infinity]). *)
Definition times2 (v : Z) : Z := Z.max (- Infinity) (Z.min Infinity (v * 2)).

(** The integer nearest to a rational, ties to the even one. *)
Definition round_even (q : Q) : Z :=
  let f := Qfloor q in
  match Qcompare (q - inject_Z f) (1 # 2) with
  | Lt => f
  | Gt => f + 1
  | Eq => if Z.even f then f else f + 1
  end.

(** The multiple of [1 / K] nearest to [s], ties to the even multiple. *)
Definition round_to (K : Z) (s : Q) : Q :=
  (inject_Z (round_even (s * inject_Z K)) / inject_Z K)%Q.

(** [x + 1] in binary64 for a number [0 <= x < 3]: the exact sum rounded
    to the 53 significant bits of binary64, ties to even.  A sum in
    [1, 2) is rounded to a multiple of 2^-52, a sum in [2, 4) to a
    multiple of 2^-51. *)
Definition plus_one_64 (x : Q) : Q :=
  let s := (x + 1)%Q in
  if Qle_bool 2 s then round_to (2 ^ 51) s else round_to (2 ^ 52) s.

(** ** Arrays *)

(** [a[i]] for an integer [i]: [None] is [undefined]. *)
Definition js_get {A} (l : list A) (i : Z) : option A :=
  if i <? 0 then None else l !! Z.to_nat i.

(** [a[i] = v] on an array of cells: an index past the end extends the
    array with holes; a negative index names a property and leaves the
    elements alone. *)
Definition js_put {A} (l : list (option A)) (i : Z) (v : option A)
  : list (option A) :=
  if i <? 0 then l
  else if (Z.to_nat i <? length l)%nat then <[Z.to_nat i := v]> l
  else l ++ replicate (Z.to_nat i - length l)%nat None ++ [v].

(** [this.blocks[x][y]]. *)
Definition cell_read (x y : Z) : M (option ref) :=
  fun w => match js_get (blocks (board w)) x with
           | None => Throw TypeError w
           | Some col => Ok (mjoin (js_get col y)) w
           end.

Definition set_blocks (bl : list (list (option ref))) (w : World) : World :=
  mkWorld (heap w) (mkBoard (cols (board w)) (rows (board w)) bl).

(** [this.blocks[x][y] = v]. *)
Definition cell_write (x y : Z) (v : option ref) : M unit :=
  fun w => match js_get (blocks (board w)) x with
           | None => Throw TypeError w
           | Some col =>
               Ok tt (set_blocks (<[Z.to_nat x := js_put col y v]>
                                    (blocks (board w))) w)
           end.

(** Reading and replacing the object behind a reference. *)
Definition load (r : ref) : M Block :=
  fun w => match heap w !! r with
           | Some b => Ok b w
           | None => Throw TypeError w
           end.

Definition store (r : ref) (b : Block) : M unit :=
  fun w => Ok tt (mkWorld (<[r := b]> (heap w)) (board w)).

(** [new Block(value, gridX, gridY)]: the constructor copies the grid
    position into the target and starts with a zero offset. *)
Definition newBlockObj (v x y : Z) : Block :=
  mkBlock v x y x y 0%Q 0%Q.

Definition alloc (b : Block) : M ref :=
  fun w => Ok (length (heap w)) (mkWorld (heap w ++ [b]) (board w)).

(** ** Helpers of the source *)

(** [assertRange(value, min, max)]. *)
Definition assertRange (v min max : Z) : M unit :=
  if (v <? min) || (v >=? max) then throw (RangeError v min max) else ret tt.

(** [lerp(a, b, delta)]. *)
Definition lerp (a b delta : Q) : Q := ((b - a) * delta + a)%Q.

(** ** Board.block, in its two overloads *)

(** [block(gridX, gridY)]. *)
Definition Board_block_get (x y : Z) : M (option ref) :=
  fun w => (assertRange x 0 (cols (board w)) ;;;
            assertRange y 0 (rows (board w)) ;;;
            cell_read x y) w.

(** [block(gridX, gridY, block)]; a block object is truthy, so the
    assignment branch is taken. *)
Definition Board_block_set (x y : Z) (b : ref) : M unit :=
  fun w => (assertRange x 0 (cols (board w)) ;;;
            assertRange y 0 (rows (board w)) ;;;
            cell_write x y (Some b)) w.

(** ** Block.update *)

Definition Block_update (delta : Q) (b : Block) : Block :=
  if Qle_bool 1 delta then
    mkBlock (value b) (targetX b) (targetY b) (targetX b) (targetY b) 0%Q 0%Q
  else
    mkBlock (value b) (gridX b) (gridY b) (targetX b) (targetY b)
      (- lerp 0 (inject_Z ((gridX b - targetX b) * blockSize)) delta)%Q
      (- lerp 0 (inject_Z ((gridY b - targetY b) * blockSize)) delta)%Q.

(** ** Block.moveLeft and Block.moveRight *)

Definition with_target (b : Block) (tx v : Z) : Block :=
  mkBlock v (gridX b) (gridY b) tx (targetY b) (offsetX b) (offsetY b).

(** The [while] loop of [moveLeft]; [fuel] bounds the iterations. *)
Fixpoint moveLeft_loop (fuel : nat) (this : ref) : M unit :=
  b <- load this ;;
  if 0 <? targetX b then
    match fuel with
    | O => fun _ => Diverge
    | S fuel' =>
        targetBlock <- Board_block_get (targetX b - 1) (gridY b) ;;
        match targetBlock with
        | None =>
            store this (with_target b (targetX b - 1) (value b)) ;;;
            moveLeft_loop fuel' this
        | Some t =>
            tb <- load t ;;
            if value tb =? value b then
              store this
                (with_target b (targetX b - 1) (times2 (value b))) ;;;
              moveLeft_loop fuel' this
            else ret tt
        end
    end
  else ret tt.

(** [moveLeft(board)]: every iteration lowers [targetX] by one, so
    [targetX] iterations are enough. *)
Definition Block_moveLeft (this : ref) : M unit :=
  b <- load this ;;
  moveLeft_loop (Z.to_nat (targetX b)) this ;;;
  b' <- load this ;;
  Board_block_set (targetX b') (targetY b') this.

Fixpoint moveRight_loop (fuel : nat) (this : ref) : M unit :=
  fun w =>
  (b <- load this ;;
   if targetX b <? cols (board w) - 1 then
     match fuel with
     | O => fun _ => Diverge
     | S fuel' =>
         targetBlock <- Board_block_get (targetX b + 1) (gridY b) ;;
         match targetBlock with
         | None =>
             store this (with_target b (targetX b + 1) (value b)) ;;;
             moveRight_loop fuel' this
         | Some t =>
             tb <- load t ;;
             if value tb =? value b then
               store this
                 (with_target b (targetX b + 1) (times2 (value b))) ;;;
               moveRight_loop fuel' this
             else ret tt
         end
     end
   else ret tt) w.

Definition Block_moveRight (this : ref) : M unit :=
  fun w =>
  (b <- load this ;;
   moveRight_loop (Z.to_nat (cols (board w) - 1 - targetX b)) this ;;;
   b' <- load this ;;
   Board_block_set (targetX b') (targetY b') this) w.

(** ** The sweeps of Board *)

(** The integers [lo, lo+1, ..., hi-1] of a [for] loop. *)
Definition zrange (lo hi : Z) : list Z :=
  map (fun i => lo + Z.of_nat i) (seq 0 (Z.to_nat (hi - lo))).

(** [this.blocks[x][y]?.f()] for one cell. *)
Definition on_cell (f : ref -> M unit) (x y : Z) : M unit :=
  c <- cell_read x y ;;
  match c with
  | Some r => f r
  | None => ret tt
  end.

(** Running a body over a list of indices, in order. *)
Fixpoint for_each {A} (l : list A) (body : A -> M unit) : M unit :=
  match l with
  | [] => ret tt
  | a :: l' => body a ;;; for_each l' body
  end.

(** [for (x ...) for (y = 0; y < this.rows; y++) this.blocks[x][y]?.f()]. *)
Definition sweep (xs : list Z) (f : ref -> M unit) : M unit :=
  fun w =>
    for_each xs (fun x =>
      for_each (zrange 0 (rows (board w))) (fun y => on_cell f x y)) w.

Definition Board_moveLeft : M unit :=
  fun w => sweep (zrange 1 (cols (board w))) Block_moveLeft w.

Definition Board_moveRight : M unit :=
  fun w => sweep (zrange 0 (cols (board w) - 1)) Block_moveRight w.

Definition Board_update (delta : Q) : M unit :=
  fun w =>
    sweep (zrange 0 (cols (board w)))
      (fun r => b <- load r ;; store r (Block_update delta b)) w.

(** ** Spawning and (re)starting *)

(** [Math.floor(r * n)] for a result [r] of [Math.random()].  The product
    is exact in binary64 when [n] is a power of two, as on the 4 by 4
    board of the program; for another [n] the rounded product stays below
    [n] and can name the cell next to this one. *)
Definition random_int (r : Q) (n : Z) : Z := Qfloor (r * inject_Z n).

(** The value of a spawned block for a random result [r]:
    [Math.floor(r * 2 + 1) * 2].  The product [r * 2] and the final
    product are exact in binary64; the sum is rounded. *)
Definition spawn_value (r : Q) : Z := Qfloor (plus_one_64 (r * 2)) * 2.

(** The rejection loop of [newBlock]: [rnd] is the stream of results of
    [Math.random()], [i] the number of results consumed so far. *)
Fixpoint newBlock_loop (fuel : nat) (rnd : nat -> Q) (i : nat) (x y : Z)
  : M (Z * Z * nat) :=
  fun w =>
  (c <- cell_read x y ;;
   match c with
   | Some _ =>
       match fuel with
       | O => fun _ => Diverge
       | S fuel' =>
           newBlock_loop fuel' rnd (i + 2)%nat
             (random_int (rnd i) (cols (board w)))
             (random_int (rnd (i + 1)%nat) (rows (board w)))
       end
   | None => ret (x, y, i)
   end) w.

(** [newBlock()]; returns the advanced cursor of the random stream. *)
Definition Board_newBlock (fuel : nat) (rnd : nat -> Q) (i : nat) : M nat :=
  fun w =>
  (p <- newBlock_loop fuel rnd (i + 2)%nat
          (random_int (rnd i) (cols (board w)))
          (random_int (rnd (i + 1)%nat) (rows (board w))) ;;
   let '(x, y, j) := p in
   r <- alloc (newBlockObj (spawn_value (rnd j)) x y) ;;
   cell_write x y (Some r) ;;;
   ret (j + 1)%nat) w.

(** [new Board(cols, rows)]. *)
Definition Board_new (c r : Z) : Board :=
  mkBoard c r (replicate (Z.to_nat c) (replicate (Z.to_nat r) None)).

(** [start()]: every cell is set to [null], then two blocks are spawned. *)
Definition Board_start (fuel : nat) (rnd : nat -> Q) (i : nat) : M nat :=
  fun w =>
  (for_each (zrange 0 (cols (board w))) (fun x =>
     for_each (zrange 0 (rows (board w))) (fun y => cell_write x y None)) ;;;
   j <- Board_newBlock fuel rnd i ;;
   Board_newBlock fuel rnd j) w.

(** [const board = new Board(4, 4)], before [board.start()]. *)
Definition initial_world : World := mkWorld [] (Board_new 4 4).

(** ** The frame function *)

Inductive Action : Type := IDLE | MOVE_LEFT | MOVE_RIGHT | MOVE_UP | MOVE_DOWN.

(** The globals [delta] and [action]. *)
Record Driver : Type := mkDriver {
  delta  : Q;
  action : Action
}.

(** The [switch (action)] of [draw]. *)
Definition dispatch (a : Action) : M unit :=
  match a with
  | IDLE => ret tt
  | MOVE_LEFT => Board_moveLeft
  | MOVE_RIGHT => Board_moveRight
  | MOVE_UP => Board_moveLeft
  | MOVE_DOWN => Board_moveLeft
  end.

Definition is_idle (a : Action) : bool :=
  match a with IDLE => true | _ => false end.

(** [draw()], without the rendering calls, which only read. *)
Definition draw (d : Driver) : M Driver :=
  let delta' := (delta d + (1 # 10))%Q in
  Board_update delta' ;;;
  if negb (Qle_bool delta' 1) && negb (is_idle (action d)) then
    dispatch (action d) ;;;
    ret (mkDriver 0%Q IDLE)
  else ret (mkDriver delta' (action d)).

(** ** Observations *)

(** The contents of cell [(x, y)] as the array holds it. *)
Definition cell (w : World) (x y : Z) : option ref :=
  js_get (blocks (board w)) x ≫= fun col => mjoin (js_get col y).

(** The value shown in a cell: the value of the block it references. *)
Definition cell_value (w : World) (x y : Z) : option Z :=
  cell w x y ≫= fun r => value <$> heap w !! r.

(** Row [y], from column 0 to the last column, as values. *)
Definition row_values (w : World) (y : Z) : list (option Z) :=
  map (fun x => cell_value w x y) (zrange 0 (cols (board w))).

(** The cells that reference block [r]. *)
Definition cells_of (w : World) (r : ref) : list (Z * Z) :=
  filter (fun p => cell w p.1 p.2 = Some r)
    (x ← zrange 0 (cols (board w)); (fun y => (x, y)) <$> zrange 0 (rows (board w))).

(** The array has the shape the constructor gave it. *)
Definition wf_board (b : Board) : Prop :=
  0 <= cols b /\ 0 <= rows b /\
  length (blocks b) = Z.to_nat (cols b) /\
  Forall (fun col => length col = Z.to_nat (rows b)) (blocks b).

(** A world with blocks [bs] (value, column, row), each in its own cell of
    a fresh [c] by [r] board. *)
Definition place (w : World) (v x y : Z) : World :=
  match (r <- alloc (newBlockObj v x y) ;; cell_write x y (Some r)) w with
  | Ok _ w' => w'
  | _ => w
  end.

Definition world_of (c r : Z) (bs : list (Z * Z * Z)) : World :=
  foldl (fun w b => place w b.1.1 b.1.2 b.2) (mkWorld [] (Board_new c r)) bs.

(** * Specifications

    [R] relates a block before a run to the same block after it; a run
    keeps the dimensions of the board and changes every block along [R]. *)
Definition related (R : Block -> Block -> Prop) (w w' : World) : Prop :=
  cols (board w') = cols (board w) /\
  rows (board w') = rows (board w) /\
  Forall2 R (heap w) (heap w').

(** The run stops (it returns or throws), in a related world. *)
Definition runs (R : Block -> Block -> Prop) {A} (m : M A) (w : World)
  : Prop :=
  exists w', final (m w) = Some w' /\ related R w w'.

(** Tile values: the powers of two. *)
Definition is_pow2 (v : Z) : Prop := exists k : nat, v = 2 ^ Z.of_nat k.

(** Rows of tiles. *)
Definition same_row (b b' : Block) : Prop :=
  gridY b' = gridY b /\ targetY b' = targetY b.

Definition rows_kept (w w' : World) : Prop :=
  forall r b, heap w !! r = Some b ->
    exists b', heap w' !! r = Some b' /\
               gridY b' = gridY b /\ targetY b' = targetY b.

(** The contract of [Math.random()]: a number in [0, 1). *)
Definition unit_interval (rnd : nat -> Q) : Prop :=
  forall k, (0 <= rnd k /\ rnd k < 1)%Q.

Definition full (w : World) : Prop :=
  forall x y, 0 <= x < cols (board w) -> 0 <= y < rows (board w) ->
              cell w x y <> None.

Definition settled (b : Block) : Prop :=
  gridX b = targetX b /\ gridY b = targetY b.

Definition offset_zero (b : Block) : Prop :=
  (offsetX b == 0)%Q /\ (offsetY b == 0)%Q.

(** The value of a block after some merges: doubled [k] times. *)
Definition doubled (b b' : Block) : Prop :=
  exists k : nat, value b' = Nat.iter k times2 (value b).

(** The world after the two branches of the loops that go on: the
    moving tile has its target at [tx], and its value doubled if it has
    merged. *)
Definition merged (this : ref) (b : Block) (tx : Z) (w : World) : World :=
  mkWorld (<[this := with_target b tx (times2 (value b))]> (heap w))
    (board w).

Definition slid (this : ref) (b : Block) (tx : Z) (w : World) : World :=
  mkWorld (<[this := with_target b tx (value b)]> (heap w)) (board w).

(** After the loop, [moveLeft] reads the block again and binds it to its
    target cell. *)
Definition moveLeft_finish (this : ref) : M unit :=
  b' <- load this ;; Board_block_set (targetX b') (targetY b') this.

(** A stream of random results given by its first elements. *)
Definition rnd_of (l : list Q) : nat -> Q := fun i => nth i l 0%Q.

(** Row [y] holding 2, empty, 2, 4 from the wall outward; the blocks are
    numbered 0, 1, 2 in that order. *)
Definition row_2_0_2_4 (y : Z) : World :=
  world_of 4 4 [(2, 0, y); (2, 2, y); (4, 3, y)].

(** Row 0 holding 4, 2, 2, empty. *)
Definition row_4_2_2_0 : World :=
  world_of 4 4 [(4, 0, 0); (2, 1, 0); (2, 2, 0)].

(** Row 0 holding empty, 2, 2, 4. *)
Definition row_0_2_2_4 : World :=
  world_of 4 4 [(2, 1, 0); (2, 2, 0); (4, 3, 0)].

(** Row 0 holding empty, 4, 2, 2. *)
Definition row_0_4_2_2 : World :=
  world_of 4 4 [(4, 1, 0); (2, 2, 0); (2, 3, 0)].

(** A grid with a block in every cell, 2 and 4 in a checkerboard. *)
Definition full_world : World :=
  world_of 4 4
    (x ← zrange 0 4;
     (fun y => (if Z.even (x + y) then 2 else 4, x, y)) <$> zrange 0 4).

(** Draws that make [start] put a 2 at (2, 0) and a 4 at (1, 3). *)
Definition rnd_a : nat -> Q := rnd_of [1#2; 0; 0; 1#4; 3#4; 9#10]%Q.

(** Draws that make [start] put a 4 at (0, 0) and a 2 at (2, 0). *)
Definition rnd_b : nat -> Q := rnd_of [0; 0; 9#10; 1#2; 0; 0]%Q.

(** The largest binary64 number below 1: 1 - 2^-53. *)
Definition just_below_one : Q := (2 ^ 53 - 1) # (2 ^ 53).

(** Draws that make [start] draw the value of its first tile, at (0, 0),
    from 1 - 2^-53, and put a 2 at (2, 0). *)
Definition rnd_c : nat -> Q := rnd_of [0; 0; just_below_one; 1#2; 0; 0]%Q.

(** [n] moves, left and right in turn. *)
Fixpoint play (n : nat) (left : bool) : M unit :=
  match n with
  | O => ret tt
  | S n' =>
      (if left then Board_moveLeft else Board_moveRight) ;;;
      play n' (negb left)
  end.

(** A block that has been moved from column 1 to column 0 and not yet
    updated. *)
Definition moved_block : Block := mkBlock 2 1 0 0 0 0%Q 0%Q.

(** Every cell that references a block is the cell the block records as
    its target. *)
Definition cells_consistent (w : World) : Prop :=
  forall x y r b, cell w x y = Some r -> heap w !! r = Some b ->
                  targetX b = x /\ targetY b = y.

(** A value that has been doubled at most once. *)
Definition merged_at_most_once (v v' : Z) : Prop := v' = v \/ v' = 2 * v.

(** ** Block.show *)

(** The calls [show()] makes on the canvas, without the style settings:
    [fillRect(x, y, w, h)] and [fillText(text, x, y)]. *)
Inductive DrawCall : Type :=
| fillRect (x y w h : Q)
| fillText (text : Z) (x y : Q).

Definition Block_show (b : Block) : list DrawCall :=
  [ fillRect
      (inject_Z (gridX b * blockSize) + offsetX b)%Q
      (inject_Z (gridY b * blockSize) + offsetY b)%Q
      (inject_Z blockSize) (inject_Z blockSize);
    fillText (value b)
      (inject_Z (gridX b * blockSize) + inject_Z blockSize / 2 + offsetX b)%Q
      (inject_Z (gridY b * blockSize) + inject_Z blockSize / 2 + offsetY b)%Q
  ].

(** * Specifications of whole runs *)

(** The run returns normally, with a result and a world that satisfy [Q]. *)
Definition returns {A} (m : M A) (w : World) (Q : A -> World -> Prop) : Prop :=
  exists a w', m w = Ok a w' /\ Q a w'.

(** The cells of columns [xs] and rows [ys] in the order of the nested
    [for] loops. *)
Definition cells_in (xs ys : list Z) : list (Z * Z) :=
  x ← xs; (fun y => (x, y)) <$> ys.

(** A block whose grid and target positions lie on the board. *)
Definition in_grid (bd : Board) (b : Block) : Prop :=
  0 <= gridX b < cols bd /\ 0 <= gridY b < rows bd /\
  0 <= targetX b < cols bd /\ 0 <= targetY b < rows bd.

(** Every cell references an allocated block. *)
Definition refs_valid (w : World) : Prop :=
  forall x y r, cell w x y = Some r -> (r < length (heap w))%nat.

(** The worlds the program lives in. *)
Definition wf_world (w : World) : Prop :=
  wf_board (board w) /\ Forall (in_grid (board w)) (heap w) /\ refs_valid w.

(** Some cell of the board references block [r]. *)
Definition referenced (w : World) (r : ref) : Prop :=
  exists x y, 0 <= x < cols (board w) /\ 0 <= y < rows (board w) /\
              cell w x y = Some r.

(** What a left move may do to a block: only the target column and the
    value change; the column does not grow and stays on the board; the
    value is doubled, as binary64 doubles it, at most once per column
    moved. *)
Definition moved_left (b b' : Block) : Prop :=
  gridX b' = gridX b /\ gridY b' = gridY b /\ targetY b' = targetY b /\
  offsetX b' = offsetX b /\ offsetY b' = offsetY b /\
  targetX b' <= targetX b /\ (0 <= targetX b -> 0 <= targetX b') /\
  exists k : nat, value b' = Nat.iter k times2 (value b) /\
                  Z.of_nat k <= targetX b - targetX b'.

(** The same for a right move on a board of [c] columns. *)
Definition moved_right (c : Z) (b b' : Block) : Prop :=
  gridX b' = gridX b /\ gridY b' = gridY b /\ targetY b' = targetY b /\
  offsetX b' = offsetX b /\ offsetY b' = offsetY b /\
  targetX b <= targetX b' /\ (targetX b < c -> targetX b' < c) /\
  exists k : nat, value b' = Nat.iter k times2 (value b) /\
                  Z.of_nat k <= targetX b' - targetX b.

(** Occupied cells stay occupied. *)
Definition cells_kept (w w' : World) : Prop :=
  forall x y, cell w x y <> None -> cell w' x y <> None.

(** What a method called on a block of a well-formed world does, for the
    rule of the sweeps: it returns, changes at most that block, along [R] at
    the number of columns,
    and empties no cell. *)
Definition block_method (R : Z -> Block -> Block -> Prop) (f : ref -> M unit)
  : Prop :=
  forall (this : ref) b w,
    wf_world w -> heap w !! this = Some b ->
    exists b' w',
      R (cols (board w)) b b' /\ f this w = Ok tt w' /\
      heap w' = <[this := b']> (heap w) /\
      cols (board w') = cols (board w) /\ rows (board w') = rows (board w) /\
      wf_world w' /\ cells_kept w w'.


(** The world [w'] is [w] with one more block, [newBlockObj v x y],
    referenced by the cell [(x, y)] alone. *)
Definition spawned (w w' : World) (v x y : Z) : Prop :=
  heap w' = heap w ++ [newBlockObj v x y] /\
  cols (board w') = cols (board w) /\ rows (board w') = rows (board w) /\
  forall x' y', cell w' x' y' =
                if decide (x' = x /\ y' = y) then @Some ref (length (heap w))
                else cell w x' y'.

(** ** The keyboard and the frame loop *)

(** The [keydown] listener: the value of [action] after a key event with
    [e.key = key]. *)
Definition keydown (key : String.string) (a : Action) : Action :=
  if String.eqb key "ArrowLeft" then MOVE_LEFT
  else if String.eqb key "ArrowRight" then MOVE_RIGHT
  else if String.eqb key "ArrowUp" then MOVE_DOWN
  else if String.eqb key "ArrowDown" then MOVE_DOWN
  else a.

(** The program after [start()]: a sequence of frames, each one preceded
    by the key events that arrived since the previous frame. *)
Fixpoint frames (events : list (list String.string)) (d : Driver) : M Driver :=
  match events with
  | [] => ret d
  | keys :: rest =>
      d' <- draw (mkDriver (delta d)
                    (foldl (fun a key => keydown key a) (action d) keys)) ;;
      frames rest d'
  end.

(** What a run of the program may do to a block: the row of its target is
    kept and its value is doubled some number of times, as binary64
    doubles it ([times2]). *)
Definition kept_in_row (b b' : Block) : Prop :=
  targetY b' = targetY b /\ doubled b b'.

(** A check of [wf_world] that computes. *)
Definition in_gridb (bd : Board) (b : Block) : bool :=
  (0 <=? gridX b) && (gridX b <? cols bd) &&
  (0 <=? gridY b) && (gridY b <? rows bd) &&
  (0 <=? targetX b) && (targetX b <? cols bd) &&
  (0 <=? targetY b) && (targetY b <? rows bd).

Definition wf_worldb (w : World) : bool :=
  (0 <=? cols (board w)) && (0 <=? rows (board w)) &&
  (length (blocks (board w)) =? Z.to_nat (cols (board w)))%nat &&
  forallb (fun col => (length col =? Z.to_nat (rows (board w)))%nat)
    (blocks (board w)) &&
  forallb (in_gridb (board w)) (heap w) &&
  forallb (forallb (fun c => match c with
                             | Some r => (r <? length (heap w))%nat
                             | None => true
                             end))
    (blocks (board w)).

(** Row 0 holding 4, empty, empty, 2. *)
Definition row_4_0_0_2 : World := world_of 4 4 [(4, 0, 0); (2, 3, 0)].

(** Row 0 holding 2, empty, empty, 4. *)
Definition row_2_0_0_4 : World := world_of 4 4 [(2, 0, 0); (4, 3, 0)].

(** Key events of three frames: the left arrow; nothing; the up arrow and
    the key x. *)
Open Scope string_scope.
Definition keys_left : String.string := "ArrowLeft".
Definition keys_right : String.string := "ArrowRight".
Definition keys_up : String.string := "ArrowUp".
Definition keys_down : String.string := "ArrowDown".
Definition keys_x : String.string := "x".
Close Scope string_scope.
Definition some_events : list (list String.string) :=
  [[keys_left]; []; [keys_up; keys_x]].

(** * Basic facts about the primitives *)

Lemma assertRange_unfold v min max w :
  assertRange v min max w =
  if (v <? min) || (v >=? max) then Throw (RangeError v min max) w
  else Ok tt w.
Proof. unfold assertRange. destruct (_ || _); reflexivity. Qed.

Lemma assertRange_ok v min max w :
  min <= v < max -> assertRange v min max w = Ok tt w.
Proof.
  intros H. rewrite assertRange_unfold.
  destruct (v <? min) eqn:E1; [lia|].
  destruct (v >=? max) eqn:E2; [lia|]. reflexivity.
Qed.

Lemma assertRange_out v min max w :
  v < min \/ max <= v ->
  assertRange v min max w = Throw (RangeError v min max) w.
Proof.
  intros H. rewrite assertRange_unfold.
  destruct (v <? min) eqn:E1; [reflexivity|].
  destruct (v >=? max) eqn:E2; [reflexivity|]. lia.
Qed.

(** [block(x, y)] never changes the world, and returns the cell. *)
Lemma Board_block_get_cases x y w :
  (exists e, Board_block_get x y w = Throw e w) \/
  (Board_block_get x y w = Ok (cell w x y) w /\
   0 <= x < cols (board w) /\ 0 <= y < rows (board w)).
Proof.
  unfold Board_block_get, bind.
  rewrite assertRange_unfold.
  destruct (x <? 0) eqn:X1; simpl; [eauto|].
  destruct (x >=? cols (board w)) eqn:X2; simpl; [eauto|].
  rewrite assertRange_unfold.
  destruct (y <? 0) eqn:Y1; simpl; [eauto|].
  destruct (y >=? rows (board w)) eqn:Y2; simpl; [eauto|].
  unfold cell_read, cell.
  destruct (js_get (blocks (board w)) x) as [col|]; simpl; [|eauto].
  right. split; [reflexivity|lia].
Qed.

(** [block(x, y, b)] changes at most the array of cells. *)
Lemma Board_block_set_cases x y b w :
  (exists e, Board_block_set x y b w = Throw e w) \/
  (exists bl, Board_block_set x y b w = Ok tt (set_blocks bl w)).
Proof.
  unfold Board_block_set, bind.
  rewrite assertRange_unfold.
  destruct (_ || _); simpl; [eauto|].
  rewrite assertRange_unfold.
  destruct (_ || _); simpl; [eauto|].
  unfold cell_write.
  destruct (js_get (blocks (board w)) x) as [col|]; simpl; eauto.
Qed.

Lemma cell_read_cases x y w :
  cell_read x y w = Throw TypeError w \/ cell_read x y w = Ok (cell w x y) w.
Proof.
  unfold cell_read, cell.
  destruct (js_get (blocks (board w)) x); simpl; auto.
Qed.

(** * How a run changes the blocks

    [R] relates a block before a run to the same block after it; a run
    keeps the dimensions of the board and changes every block along [R]. *)

Section Evolution.
Variable R : Block -> Block -> Prop.
Hypothesis R_refl : forall b, R b b.
Hypothesis R_trans : forall a b c, R a b -> R b c -> R a c.

Lemma related_refl w : related R w w.
Proof.
  repeat split. apply Forall2_same_length_lookup_2; [reflexivity|].
  intros i x y H1 H2. rewrite H1 in H2. injection H2 as ->. apply R_refl.
Qed.

Lemma related_trans w1 w2 w3 :
  related R w1 w2 -> related R w2 w3 -> related R w1 w3.
Proof.
  intros (C1 & R1 & H1) (C2 & R2 & H2). repeat split; try congruence.
  eapply Forall2_trans; [|exact H1|exact H2]. exact R_trans.
Qed.

Lemma related_set_blocks bl w : related R w (set_blocks bl w).
Proof. destruct (related_refl w) as (_ & _ & H). repeat split. exact H. Qed.

Lemma related_store r b b' w :
  heap w !! r = Some b -> R b b' ->
  related R w (mkWorld (<[r := b']> (heap w)) (board w)).
Proof.
  intros Hr Hb. repeat split. simpl.
  rewrite <- (list_insert_id (heap w) r b Hr) at 1.
  apply Forall2_insert; [|exact Hb].
  apply (related_refl w).
Qed.

Lemma runs_stop {A} (m : M A) w :
  (exists a, m w = Ok a w) \/ (exists e, m w = Throw e w) -> runs R m w.
Proof.
  intros [[a H]|[e H]]; exists w; rewrite H; split;
    auto using related_refl.
Qed.

Lemma runs_bind {A B} (m : M A) (k : A -> M B) w :
  runs R m w ->
  (forall a w', m w = Ok a w' -> runs R (k a) w') ->
  runs R (m' <- m ;; k m') w.
Proof.
  intros (w1 & F1 & H1) Hk. unfold runs, bind.
  destruct (m w) as [a w'|e w'|] eqn:E; simpl in F1; try discriminate.
  - injection F1 as ->. destruct (Hk a w1 eq_refl) as (w2 & F2 & H2).
    exists w2. split; [exact F2|]. eapply related_trans; eauto.
  - injection F1 as ->. exists w1. split; [reflexivity|exact H1].
Qed.

Lemma runs_for_each {A} (l : list A) (body : A -> M unit) :
  (forall a w, runs R (body a) w) -> forall w, runs R (for_each l body) w.
Proof.
  intros Hb. induction l as [|a l IH]; intros w; simpl.
  - apply runs_stop. left. exists tt. reflexivity.
  - apply runs_bind; [apply Hb|]. intros _ w' _. apply IH.
Qed.

Lemma runs_on_cell f x y :
  (forall r w, runs R (f r) w) -> forall w, runs R (on_cell f x y) w.
Proof.
  intros Hf w. unfold on_cell. apply runs_bind.
  - apply runs_stop. destruct (cell_read_cases x y w); eauto.
  - intros [r|] w' _; [apply Hf|]. apply runs_stop. left. exists tt.
    reflexivity.
Qed.

Lemma runs_sweep xs f :
  (forall r w, runs R (f r) w) -> forall w, runs R (sweep xs f) w.
Proof.
  intros Hf w. unfold sweep.
  apply runs_for_each. intros x w1.
  apply runs_for_each. intros y w2. apply runs_on_cell, Hf.
Qed.

Lemma runs_block_set x y b w : runs R (Board_block_set x y b) w.
Proof.
  destruct (Board_block_set_cases x y b w) as [[e H]|[bl H]].
  - apply runs_stop. eauto.
  - exists (set_blocks bl w). rewrite H. split; [reflexivity|].
    apply related_set_blocks.
Qed.
End Evolution.

(** The move loops stop within the iterations [Block.moveLeft] and
    [Block.moveRight] allow them, and change blocks only by sliding the
    target column or by sliding it and doubling the value. *)

Section Moves.
Variable R : Block -> Block -> Prop.
Hypothesis R_refl : forall b, R b b.
Hypothesis R_trans : forall a b c, R a b -> R b c -> R a c.
Hypothesis R_slide : forall b tx, R b (with_target b tx (value b)).
Hypothesis R_merge : forall b tx, R b (with_target b tx (times2 (value b))).

Lemma runs_load_then {B} r (k : Block -> M B) w :
  (forall b, heap w !! r = Some b -> runs R (k b) w) ->
  runs R (b <- load r ;; k b) w.
Proof.
  intros Hk. unfold runs, bind, load.
  destruct (heap w !! r) as [b|] eqn:E.
  - apply Hk. reflexivity.
  - exists w. split; [reflexivity|]. apply related_refl, R_refl.
Qed.

Lemma runs_store_then {B} r b b' (k : M B) w :
  heap w !! r = Some b -> R b b' ->
  runs R k (mkWorld (<[r := b']> (heap w)) (board w)) ->
  runs R (store r b' ;;; k) w.
Proof.
  intros Hr Hb (w' & F & H). exists w'. split; [exact F|].
  eapply related_trans; [exact R_trans| |exact H].
  eapply related_store; eauto.
Qed.

Lemma runs_get_then {B} x y (k : option ref -> M B) w :
  (0 <= x < cols (board w) -> 0 <= y < rows (board w) ->
   runs R (k (cell w x y)) w) ->
  runs R (c <- Board_block_get x y ;; k c) w.
Proof.
  intros Hk. unfold runs, bind.
  destruct (Board_block_get_cases x y w) as [[e H]|(H & Hx & Hy)];
    rewrite H.
  - exists w. split; [reflexivity|]. apply related_refl, R_refl.
  - apply Hk; assumption.
Qed.

Lemma runs_ret {A} (a : A) w : runs R (ret a) w.
Proof. apply runs_stop; [exact R_refl|]. left. exists a. reflexivity. Qed.

Lemma lookup_stored (h : list Block) r b b' :
  h !! r = Some b -> <[r := b']> h !! r = Some b'.
Proof.
  intros H. apply list_lookup_insert_eq. eapply lookup_lt_Some, H.
Qed.

Lemma runs_moveLeft_loop fuel this w :
  (forall b, heap w !! this = Some b -> (Z.to_nat (targetX b) <= fuel)%nat) ->
  runs R (moveLeft_loop fuel this) w.
Proof.
  revert w. induction fuel as [|fuel IH]; intros w Hfuel.
  - simpl. apply runs_load_then. intros b Hb.
    specialize (Hfuel b Hb).
    destruct (0 <? targetX b) eqn:E; [lia|]. apply runs_ret.
  - simpl. apply runs_load_then. intros b Hb.
    specialize (Hfuel b Hb).
    destruct (0 <? targetX b) eqn:E; [|apply runs_ret].
    apply runs_get_then. intros _ _.
    destruct (cell w (targetX b - 1) (gridY b)) as [t|].
    + apply runs_load_then. intros tb _.
      destruct (value tb =? value b); [|apply runs_ret].
      eapply runs_store_then; [exact Hb|apply R_merge|].
      apply IH. simpl. intros b' Hb'.
      rewrite (lookup_stored _ _ _ _ Hb) in Hb'.
      injection Hb' as <-. simpl. lia.
    + eapply runs_store_then; [exact Hb|apply R_slide|].
      apply IH. simpl. intros b' Hb'.
      rewrite (lookup_stored _ _ _ _ Hb) in Hb'.
      injection Hb' as <-. simpl. lia.
Qed.

Lemma runs_moveRight_loop fuel this w :
  (forall b, heap w !! this = Some b ->
             (Z.to_nat (cols (board w) - 1 - targetX b) <= fuel)%nat) ->
  runs R (moveRight_loop fuel this) w.
Proof.
  revert w. induction fuel as [|fuel IH]; intros w Hfuel.
  - simpl. apply runs_load_then. intros b Hb.
    specialize (Hfuel b Hb).
    destruct (targetX b <? cols (board w) - 1) eqn:E; [lia|].
    apply runs_ret.
  - simpl. apply runs_load_then. intros b Hb.
    specialize (Hfuel b Hb).
    destruct (targetX b <? cols (board w) - 1) eqn:E; [|apply runs_ret].
    apply runs_get_then. intros _ _.
    destruct (cell w (targetX b + 1) (gridY b)) as [t|].
    + apply runs_load_then. intros tb _.
      destruct (value tb =? value b); [|apply runs_ret].
      eapply runs_store_then; [exact Hb|apply R_merge|].
      apply IH. simpl. intros b' Hb'.
      rewrite (lookup_stored _ _ _ _ Hb) in Hb'.
      injection Hb' as <-. simpl. lia.
    + eapply runs_store_then; [exact Hb|apply R_slide|].
      apply IH. simpl. intros b' Hb'.
      rewrite (lookup_stored _ _ _ _ Hb) in Hb'.
      injection Hb' as <-. simpl. lia.
Qed.

Lemma runs_Block_moveLeft this w : runs R (Block_moveLeft this) w.
Proof.
  unfold Block_moveLeft. apply runs_load_then. intros b Hb.
  apply runs_bind; try assumption.
  - apply runs_moveLeft_loop. intros b' Hb'.
    assert (b' = b) as -> by congruence. lia.
  - intros _ w' _. apply runs_load_then. intros b' _.
    apply runs_block_set, R_refl.
Qed.

Lemma runs_Block_moveRight this w : runs R (Block_moveRight this) w.
Proof.
  unfold Block_moveRight. apply runs_load_then. intros b Hb.
  apply runs_bind; try assumption.
  - apply runs_moveRight_loop. intros b' Hb'.
    assert (b' = b) as -> by congruence. lia.
  - intros _ w' _. apply runs_load_then. intros b' _.
    apply runs_block_set, R_refl.
Qed.

Lemma runs_Board_moveLeft w : runs R Board_moveLeft w.
Proof.
  unfold Board_moveLeft. apply runs_sweep; try assumption.
  apply runs_Block_moveLeft.
Qed.

Lemma runs_Board_moveRight w : runs R Board_moveRight w.
Proof.
  unfold Board_moveRight. apply runs_sweep; try assumption.
  apply runs_Block_moveRight.
Qed.
End Moves.

(** * Rows *)

Lemma runs_rows_kept {A} (m : M A) w :
  runs same_row m w -> exists w', final (m w) = Some w' /\ rows_kept w w'.
Proof.
  intros (w' & F & _ & _ & H). exists w'. split; [exact F|].
  intros r b Hb.
  destruct (Forall2_lookup_l _ _ _ _ _ H Hb) as (b' & Hb' & Hr & Ht).
  eauto.
Qed.

(** ** C10 *)

(** C10: [Block.moveLeft], [Block.moveRight] and the board-wide sweeps
    [Board.moveLeft] and [Board.moveRight] always stop, and every block of
    the store has the same [gridY] and the same [targetY] afterwards as
    before: horizontal move resolution never changes a tile's row. *)
Theorem horizontal_moves_keep_rows (w : World) :
  (forall this, exists w',
      final (Block_moveLeft this w) = Some w' /\ rows_kept w w') /\
  (forall this, exists w',
      final (Block_moveRight this w) = Some w' /\ rows_kept w w') /\
  (exists w', final (Board_moveLeft w) = Some w' /\ rows_kept w w') /\
  (exists w', final (Board_moveRight w) = Some w' /\ rows_kept w w').
Proof.
  assert (Hr : forall b, same_row b b) by (intros b; split; reflexivity).
  assert (Ht : forall a b c, same_row a b -> same_row b c -> same_row a c).
  { intros a b c [H1 H2] [H3 H4]. split; congruence. }
  assert (Hs : forall b tx v, same_row b (with_target b tx v))
    by (intros b tx v; split; reflexivity).
  repeat split; intros; apply runs_rows_kept.
  - apply runs_Block_moveLeft; auto.
  - apply runs_Block_moveRight; auto.
  - apply runs_Board_moveLeft; auto.
  - apply runs_Board_moveRight; auto.
Qed.

(** ** Random numbers *)

Lemma Qfloor_range (a b : Z) (q : Q) :
  (inject_Z a <= q)%Q -> (q < inject_Z b)%Q -> a <= Qfloor q < b.
Proof.
  intros H1 H2. split.
  - rewrite <- (Qfloor_Z a). apply Qfloor_resp_le, H1.
  - rewrite Zlt_Qlt. eapply Qle_lt_trans; [apply Qfloor_le|exact H2].
Qed.

Lemma random_int_range (r : Q) (n : Z) :
  (0 <= r)%Q -> (r < 1)%Q -> 0 < n -> 0 <= random_int r n < n.
Proof.
  intros H0 H1 Hn. unfold random_int.
  assert (Hn' : (inject_Z 0 < inject_Z n)%Q) by (rewrite <- Zlt_Qlt; exact Hn).
  apply Qfloor_range.
  - apply Qmult_le_0_compat; [exact H0|]. apply Qlt_le_weak, Hn'.
  - apply Qlt_le_trans with (1 * inject_Z n)%Q.
    + apply Qmult_lt_compat_r; assumption.
    + rewrite Qmult_1_l. apply Qle_refl.
Qed.

(** Rounding to the nearest integer moves a number by at most one half. *)
Lemma round_even_near (q : Q) :
  (inject_Z (round_even q) - (1 # 2) <= q)%Q /\
  (q <= inject_Z (round_even q) + (1 # 2))%Q.
Proof.
  unfold round_even.
  pose proof (Qfloor_le q) as Hlo. pose proof (Qlt_floor q) as Hhi.
  rewrite inject_Z_plus in Hhi. change (inject_Z 1) with 1%Q in Hhi.
  destruct (Qcompare (q - inject_Z (Qfloor q)) (1 # 2)) eqn:E.
  - apply Qeq_alt in E.
    destruct (Z.even (Qfloor q)); [|rewrite inject_Z_plus;
      change (inject_Z 1) with 1%Q]; split; lra.
  - apply Qlt_alt in E. split; lra.
  - apply Qgt_alt in E. rewrite inject_Z_plus.
    change (inject_Z 1) with 1%Q. split; lra.
Qed.

Lemma round_even_bounds (a b : Z) (q : Q) :
  (inject_Z a <= q)%Q -> (q <= inject_Z b)%Q -> a <= round_even q <= b.
Proof.
  intros Ha Hb. destruct (round_even_near q) as [H1 H2].
  split.
  - assert (H : (inject_Z a < inject_Z (round_even q + 1))%Q).
    { rewrite inject_Z_plus. change (inject_Z 1) with 1%Q. lra. }
    rewrite <- Zlt_Qlt in H. lia.
  - assert (H : (inject_Z (round_even q) < inject_Z (b + 1))%Q).
    { rewrite inject_Z_plus. change (inject_Z 1) with 1%Q. lra. }
    rewrite <- Zlt_Qlt in H. lia.
Qed.

Lemma round_to_bounds (K a b : Z) (s : Q) :
  0 < K -> (inject_Z a <= s)%Q -> (s <= inject_Z b)%Q ->
  (inject_Z a <= round_to K s)%Q /\ (round_to K s <= inject_Z b)%Q.
Proof.
  intros HK Ha Hb.
  assert (HK' : (0 < inject_Z K)%Q).
  { change 0%Q with (inject_Z 0). rewrite <- Zlt_Qlt. exact HK. }
  destruct (round_even_bounds (a * K) (b * K) (s * inject_Z K)) as [H1 H2].
  - rewrite inject_Z_mult. apply Qmult_le_compat_r; [exact Ha|lra].
  - rewrite inject_Z_mult. apply Qmult_le_compat_r; [exact Hb|lra].
  - unfold round_to. split.
    + apply Qle_shift_div_l; [exact HK'|].
      rewrite <- inject_Z_mult. rewrite <- Zle_Qle. exact H1.
    + apply Qle_shift_div_r; [exact HK'|].
      rewrite <- inject_Z_mult. rewrite <- Zle_Qle. exact H2.
Qed.

Lemma plus_one_64_bounds (x : Q) :
  (0 <= x)%Q -> (x < 2)%Q ->
  (1 <= plus_one_64 x)%Q /\ (plus_one_64 x <= 3)%Q.
Proof.
  intros H0 H2. unfold plus_one_64.
  destruct (Qle_bool 2 (x + 1));
    apply (round_to_bounds _ 1 3); try reflexivity;
    change (inject_Z 1) with 1%Q; change (inject_Z 3) with 3%Q; lra.
Qed.

Lemma spawn_value_cases (r : Q) :
  (0 <= r)%Q -> (r < 1)%Q ->
  spawn_value r = 2 \/ spawn_value r = 4 \/ spawn_value r = 6.
Proof.
  intros H0 H1. unfold spawn_value.
  destruct (plus_one_64_bounds (r * 2)) as [Hlo Hhi]; [lra|lra|].
  assert (1 <= Qfloor (plus_one_64 (r * 2)) < 4); [|lia].
  apply Qfloor_range.
  - exact Hlo.
  - change (inject_Z 4) with 4%Q. lra.
Qed.

Lemma round_to_below (K b : Z) (s : Q) :
  0 < K -> (s * inject_Z K < inject_Z (b * K) - (1 # 2))%Q ->
  (round_to K s < inject_Z b)%Q.
Proof.
  intros HK Hs.
  assert (HK' : (0 < inject_Z K)%Q).
  { change 0%Q with (inject_Z 0). rewrite <- Zlt_Qlt. exact HK. }
  destruct (round_even_near (s * inject_Z K)) as [H1 _].
  unfold round_to. apply Qlt_shift_div_r; [exact HK'|].
  rewrite <- inject_Z_mult. rewrite <- Zlt_Qlt.
  assert (H : (inject_Z (round_even (s * inject_Z K)) < inject_Z (b * K))%Q)
    by lra.
  rewrite <- Zlt_Qlt in H. exact H.
Qed.

Lemma spawn_value_below (r : Q) :
  (0 <= r)%Q -> (r < just_below_one)%Q ->
  spawn_value r = 2 \/ spawn_value r = 4.
Proof.
  intros H0 H1. unfold spawn_value.
  assert (1 <= Qfloor (plus_one_64 (r * 2)) < 3); [|lia].
  assert (Hr1 : (r < 1)%Q).
  { eapply Qlt_trans; [exact H1|]. reflexivity. }
  apply Qfloor_range.
  - apply plus_one_64_bounds; lra.
  - unfold plus_one_64. destruct (Qle_bool 2 (r * 2 + 1)) eqn:E.
    + apply round_to_below; [reflexivity|].
      unfold just_below_one in H1.
      unfold Qlt, Qmult, Qplus, Qminus, Qopp, inject_Z in *. simpl in *. lia.
    + apply Qle_lt_trans with (inject_Z 2); [|reflexivity].
      apply (round_to_bounds _ 1 2); [reflexivity| |].
      * change (inject_Z 1) with 1%Q. lra.
      * assert (H : ~ (2 <= r * 2 + 1)%Q).
        { intros H. apply Qle_bool_iff in H. congruence. }
        change (inject_Z 2) with 2%Q. lra.
Qed.

(** ** Spawning *)

Lemma runs_update R delta :
  (forall b, R b b) -> (forall a b c, R a b -> R b c -> R a c) ->
  (forall b, R b (Block_update delta b)) ->
  forall w, runs R (Board_update delta) w.
Proof.
  intros Hrefl Htrans Hu w. unfold Board_update.
  apply runs_sweep; try assumption. intros r w1.
  apply runs_load_then; [exact Hrefl|]. intros b Hb.
  eexists. split; [reflexivity|]. eapply related_store; eauto.
Qed.

(** ** C9 *)

Lemma six_not_pow2 : ~ is_pow2 6.
Proof.
  intros [k H]. destruct k as [|[|[|k]]]; try discriminate H.
  assert (2 ^ 3 <= 2 ^ Z.of_nat (S (S (S k))))
    by (apply Z.pow_le_mono_r; lia).
  change (2 ^ 3) with 8 in *. lia.
Qed.

(** C9 at inputs the program can receive.  When [Math.random()] returns
    1 - 2^-53 for the value of a tile, the sum [r * 2 + 1] rounds to 3 and
    [start] spawns a tile of value 6, which is not a power of two.  And
    after [start] has put a 4 at (0, 0) and a 2 at (2, 0), 513 moves, left
    and right in turn, take the second tile to [Infinity]: it doubles
    twice in every move from the third on, on the cells it has left. *)
Theorem tile_value_not_power_of_two :
  spawn_value just_below_one = 6 /\ ~ is_pow2 6 /\
  (exists w,
     Board_start 0 rnd_c 0 initial_world = Ok 6%nat w /\
     cell_value w 0 0 = Some 6 /\ cell_value w 2 0 = Some 2) /\
  (exists w0 w1 w2,
     Board_start 0 rnd_b 0 initial_world = Ok 6%nat w0 /\
     play 512 true w0 = Ok tt w1 /\
     value <$> heap w1 !! 1%nat = Some (2 ^ 1022) /\
     play 513 true w0 = Ok tt w2 /\
     value <$> heap w2 !! 1%nat = Some Infinity).
Proof.
  split; [vm_compute; reflexivity|]. split; [exact six_not_pow2|]. split.
  - eexists. split; [vm_compute; reflexivity|]. split; reflexivity.
  - do 3 eexists.
    split; [vm_compute; reflexivity|].
    split; [vm_compute; reflexivity|].
    split; [vm_compute; reflexivity|].
    split; [vm_compute; reflexivity|].
    vm_compute. reflexivity.
Qed.

(** ** C8 *)

Lemma wf_board_cell (b : Board) (x y : Z) :
  wf_board b -> 0 <= x < cols b -> 0 <= y < rows b ->
  exists col c, blocks b !! Z.to_nat x = Some col /\
                col !! Z.to_nat y = Some c.
Proof.
  intros (_ & _ & Hl & Hc) Hx Hy.
  destruct (lookup_lt_is_Some_2 (blocks b) (Z.to_nat x)) as [col Hcol];
    [lia|].
  assert (Hlen : length col = Z.to_nat (rows b)).
  { rewrite Forall_forall in Hc. apply Hc.
    eapply list_elem_of_lookup_2, Hcol. }
  destruct (lookup_lt_is_Some_2 col (Z.to_nat y)) as [c Hcell]; [lia|].
  eauto.
Qed.

(** C8: [block(col, row)] throws the range error of [assertRange] when
    [col] is outside [0, cols) or [row] is outside [0, rows), and otherwise
    returns the content of the cell: nothing when the cell is unoccupied,
    the occupying tile when it is occupied.  The world is left as it was
    in every case. *)
Theorem cellAt_checks_range (w : World) (x y : Z) :
  wf_board (board w) ->
  (x < 0 \/ cols (board w) <= x ->
   Board_block_get x y w = Throw (RangeError x 0 (cols (board w))) w) /\
  (0 <= x < cols (board w) -> y < 0 \/ rows (board w) <= y ->
   Board_block_get x y w = Throw (RangeError y 0 (rows (board w))) w) /\
  (0 <= x < cols (board w) -> 0 <= y < rows (board w) ->
   exists col c,
     blocks (board w) !! Z.to_nat x = Some col /\
     col !! Z.to_nat y = Some c /\
     Board_block_get x y w = Ok c w).
Proof.
  intros Hwf. split; [|split].
  - intros Hx. unfold Board_block_get, bind.
    rewrite assertRange_out by lia. reflexivity.
  - intros Hx Hy. unfold Board_block_get, bind.
    rewrite assertRange_ok by lia. rewrite assertRange_out by lia.
    reflexivity.
  - intros Hx Hy.
    destruct (wf_board_cell _ x y Hwf Hx Hy) as (col & c & Hcol & Hc).
    exists col, c. repeat split; try assumption.
    unfold Board_block_get, bind.
    rewrite assertRange_ok by lia. rewrite assertRange_ok by lia.
    unfold cell_read, js_get.
    destruct (x <? 0) eqn:E1; [lia|]. rewrite Hcol.
    destruct (y <? 0) eqn:E2; [lia|]. rewrite Hc. reflexivity.
Qed.

(** ** C6 *)

(** C6: in the [switch] of [draw], the up action and the down action each
    run exactly what the left action runs, [Board.moveLeft]; a whole frame
    with a pending up or down action leaves the store and the grid as the
    same frame with a pending left action leaves them. *)
Theorem vertical_actions_take_left_path (w : World) (d : Q) :
  dispatch MOVE_LEFT w = Board_moveLeft w /\
  dispatch MOVE_UP w = dispatch MOVE_LEFT w /\
  dispatch MOVE_DOWN w = dispatch MOVE_LEFT w /\
  final (draw (mkDriver d MOVE_UP) w) = final (draw (mkDriver d MOVE_LEFT) w) /\
  final (draw (mkDriver d MOVE_DOWN) w) = final (draw (mkDriver d MOVE_LEFT) w).
Proof.
  split; [reflexivity|]. split; [reflexivity|]. split; [reflexivity|].
  unfold draw, bind. simpl.
  destruct (Board_update (d + (1 # 10)) w) as [[] w'|e w'|];
    [|split; reflexivity|split; reflexivity].
  destruct (negb (Qle_bool (d + (1 # 10)) 1)); simpl; split; reflexivity.
Qed.

(** ** C5 *)

Lemma offset_axis_zero (d : Z) (delta : Q) :
  ~ (delta == 0)%Q ->
  (- lerp 0 (inject_Z (d * blockSize)) delta == 0)%Q <-> d = 0.
Proof.
  intros Hd. unfold lerp, blockSize. split.
  - intros H.
    assert (H' : (inject_Z (d * 50) * delta == 0)%Q).
    { assert (E : (inject_Z (d * 50) * delta ==
                   - - ((inject_Z (d * 50) - 0) * delta + 0))%Q) by ring.
      rewrite E, H. reflexivity. }
    apply Qmult_integral in H'. destruct H' as [H'|H']; [|contradiction].
    change 0%Q with (inject_Z 0) in H'. 
    apply (proj1 (inject_Z_injective _ _)) in H'. lia.
  - intros ->. change (inject_Z (0 * 50)) with 0%Q. ring.
Qed.

(** C5, as the code has it: right after [update(delta)] with a progress
    [delta] other than 0, the offset of a tile is zero exactly when its
    grid position equals its target position. *)
Theorem offset_zero_iff_settled_after_update (b : Block) (delta : Q) :
  ~ (delta == 0)%Q ->
  offset_zero (Block_update delta b) <-> settled (Block_update delta b).
Proof.
  intros Hd. unfold Block_update, offset_zero, settled.
  destruct (Qle_bool 1 delta); simpl.
  - split; intros _; split; reflexivity.
  - rewrite !offset_axis_zero by exact Hd. lia.
Qed.

(** ** C4 *)

Lemma newBlock_loop_full fuel rnd i x y w :
  0 < cols (board w) -> 0 < rows (board w) ->
  full w -> unit_interval rnd ->
  0 <= x < cols (board w) -> 0 <= y < rows (board w) ->
  newBlock_loop fuel rnd i x y w = Diverge.
Proof.
  intros Hc Hr Hfull Hrnd. revert i x y.
  induction fuel as [|fuel IH]; intros i x y Hx Hy;
    pose proof (Hfull x y Hx Hy) as Hcell;
    simpl; unfold bind, cell_read; unfold cell in Hcell;
    destruct (js_get (blocks (board w)) x) as [col|]; simpl in *;
    try congruence;
    destruct (mjoin (js_get col y)); try congruence.
  apply IH; apply random_int_range; try assumption; apply Hrnd.
Qed.

Lemma Board_newBlock_full fuel rnd i w :
  0 < cols (board w) -> 0 < rows (board w) ->
  full w -> unit_interval rnd ->
  Board_newBlock fuel rnd i w = Diverge.
Proof.
  intros Hc Hr Hfull Hrnd. unfold Board_newBlock, bind.
  rewrite newBlock_loop_full; try assumption; try reflexivity;
    apply random_int_range; try assumption; apply Hrnd.
Qed.

(** C4, as the code has it: on a grid in which every cell is occupied,
    [newBlock] raises no error and does not return; its rejection loop
    rejects every draw, however many iterations it is given. *)
Theorem spawn_on_full_grid_never_stops
    (w : World) (rnd : nat -> Q) (fuel i : nat) :
  0 < cols (board w) -> 0 < rows (board w) ->
  full w -> unit_interval rnd ->
  Board_newBlock fuel rnd i w = Diverge.
Proof. apply Board_newBlock_full. Qed.

(** ** C2 *)

Lemma doubled_refl b : doubled b b.
Proof. exists 0%nat. reflexivity. Qed.

Lemma doubled_trans a b c : doubled a b -> doubled b c -> doubled a c.
Proof.
  intros [k Hk] [j Hj]. exists (j + k)%nat.
  rewrite Hj, Hk, Nat.iter_add. reflexivity.
Qed.

Lemma doubled_slide b tx : doubled b (with_target b tx (value b)).
Proof. exists 0%nat. reflexivity. Qed.

Lemma doubled_merge b tx : doubled b (with_target b tx (times2 (value b))).
Proof. exists 1%nat. reflexivity. Qed.

Lemma Board_block_get_ok x y r w :
  0 <= x < cols (board w) -> 0 <= y < rows (board w) ->
  cell w x y = Some r -> Board_block_get x y w = Ok (Some r) w.
Proof.
  intros Hx Hy Hc. unfold Board_block_get, bind.
  rewrite assertRange_ok by lia. rewrite assertRange_ok by lia.
  unfold cell_read. unfold cell in Hc.
  destruct (js_get (blocks (board w)) x); simpl in Hc; [|discriminate].
  rewrite Hc. reflexivity.
Qed.

(** The four ways an iteration of the loop of [moveLeft] can go. *)

Lemma moveLeft_loop_wall fuel (this : ref) b w :
  heap w !! this = Some b -> targetX b <= 0 ->
  moveLeft_loop fuel this w = Ok tt w.
Proof.
  intros Hb Hx. destruct fuel; simpl; unfold bind, load; rewrite Hb;
    (destruct (0 <? targetX b) eqn:E; [lia|reflexivity]).
Qed.

Lemma moveLeft_loop_empty fuel (this : ref) b w :
  heap w !! this = Some b -> 0 < targetX b ->
  Board_block_get (targetX b - 1) (gridY b) w = Ok None w ->
  moveLeft_loop (S fuel) this w =
  moveLeft_loop fuel this (slid this b (targetX b - 1) w).
Proof.
  intros Hb Hx Hget. simpl. unfold bind at 1. unfold load at 1.
  rewrite Hb. destruct (0 <? targetX b) eqn:E; [|lia].
  unfold bind at 1. rewrite Hget. reflexivity.
Qed.

Lemma moveLeft_loop_merge fuel (this t : ref) b tb w :
  heap w !! this = Some b -> heap w !! t = Some tb -> value tb = value b ->
  0 < targetX b ->
  Board_block_get (targetX b - 1) (gridY b) w = Ok (Some t) w ->
  moveLeft_loop (S fuel) this w =
  moveLeft_loop fuel this (merged this b (targetX b - 1) w).
Proof.
  intros Hb Ht Hv Hx Hget. simpl. unfold bind at 1. unfold load at 1.
  rewrite Hb. destruct (0 <? targetX b) eqn:E; [|lia].
  unfold bind at 1. rewrite Hget.
  unfold bind at 1. unfold load at 1. rewrite Ht.
  rewrite Hv, Z.eqb_refl. reflexivity.
Qed.

Lemma moveLeft_loop_blocked fuel (this t : ref) b tb w :
  heap w !! this = Some b -> heap w !! t = Some tb -> value tb <> value b ->
  0 < targetX b ->
  Board_block_get (targetX b - 1) (gridY b) w = Ok (Some t) w ->
  moveLeft_loop (S fuel) this w = Ok tt w.
Proof.
  intros Hb Ht Hv Hx Hget. simpl. unfold bind at 1. unfold load at 1.
  rewrite Hb. destruct (0 <? targetX b) eqn:E; [|lia].
  unfold bind at 1. rewrite Hget.
  unfold bind at 1. unfold load at 1. rewrite Ht.
  destruct (value tb =? value b) eqn:Ev; [lia|reflexivity].
Qed.

(** The same for the loop of [moveRight]. *)

Lemma moveRight_loop_wall fuel (this : ref) b w :
  heap w !! this = Some b -> cols (board w) - 1 <= targetX b ->
  moveRight_loop fuel this w = Ok tt w.
Proof.
  intros Hb Hx. destruct fuel; simpl; unfold bind, load; rewrite Hb;
    (destruct (targetX b <? cols (board w) - 1) eqn:E; [lia|reflexivity]).
Qed.

Lemma moveRight_loop_empty fuel (this : ref) b w :
  heap w !! this = Some b -> targetX b < cols (board w) - 1 ->
  Board_block_get (targetX b + 1) (gridY b) w = Ok None w ->
  moveRight_loop (S fuel) this w =
  moveRight_loop fuel this (slid this b (targetX b + 1) w).
Proof.
  intros Hb Hx Hget. simpl. unfold bind at 1. unfold load at 1.
  rewrite Hb. destruct (targetX b <? cols (board w) - 1) eqn:E; [|lia].
  unfold bind at 1. rewrite Hget. reflexivity.
Qed.

Lemma moveRight_loop_merge fuel (this t : ref) b tb w :
  heap w !! this = Some b -> heap w !! t = Some tb -> value tb = value b ->
  targetX b < cols (board w) - 1 ->
  Board_block_get (targetX b + 1) (gridY b) w = Ok (Some t) w ->
  moveRight_loop (S fuel) this w =
  moveRight_loop fuel this (merged this b (targetX b + 1) w).
Proof.
  intros Hb Ht Hv Hx Hget. simpl. unfold bind at 1. unfold load at 1.
  rewrite Hb. destruct (targetX b <? cols (board w) - 1) eqn:E; [|lia].
  unfold bind at 1. rewrite Hget.
  unfold bind at 1. unfold load at 1. rewrite Ht.
  rewrite Hv, Z.eqb_refl. reflexivity.
Qed.

Lemma moveRight_loop_blocked fuel (this t : ref) b tb w :
  heap w !! this = Some b -> heap w !! t = Some tb -> value tb <> value b ->
  targetX b < cols (board w) - 1 ->
  Board_block_get (targetX b + 1) (gridY b) w = Ok (Some t) w ->
  moveRight_loop (S fuel) this w = Ok tt w.
Proof.
  intros Hb Ht Hv Hx Hget. simpl. unfold bind at 1. unfold load at 1.
  rewrite Hb. destruct (targetX b <? cols (board w) - 1) eqn:E; [|lia].
  unfold bind at 1. rewrite Hget.
  unfold bind at 1. unfold load at 1. rewrite Ht.
  destruct (value tb =? value b) eqn:Ev; [lia|reflexivity].
Qed.

Lemma Block_moveLeft_unfold this b w :
  heap w !! this = Some b ->
  Block_moveLeft this w =
  (moveLeft_loop (Z.to_nat (targetX b)) this ;;; moveLeft_finish this) w.
Proof.
  intros Hb. unfold Block_moveLeft. unfold bind at 1. unfold load at 1.
  rewrite Hb. reflexivity.
Qed.

Lemma Block_moveRight_unfold this b w :
  heap w !! this = Some b ->
  Block_moveRight this w =
  (moveRight_loop (Z.to_nat (cols (board w) - 1 - targetX b)) this ;;;
   moveLeft_finish this) w.
Proof.
  intros Hb. unfold Block_moveRight. unfold bind at 1. unfold load at 1.
  rewrite Hb. reflexivity.
Qed.

Lemma runs_moveLeft_tail fuel this w :
  (forall b, heap w !! this = Some b -> (Z.to_nat (targetX b) <= fuel)%nat) ->
  runs doubled (moveLeft_loop fuel this ;;; moveLeft_finish this) w.
Proof.
  intros Hf. apply runs_bind; [exact doubled_trans| |].
  - apply runs_moveLeft_loop;
      auto using doubled_refl, doubled_slide, doubled_merge.
    exact doubled_trans.
  - intros _ w' _. apply runs_load_then; [exact doubled_refl|].
    intros b' _. apply runs_block_set, doubled_refl.
Qed.

Lemma runs_moveRight_tail fuel this w :
  (forall b, heap w !! this = Some b ->
             (Z.to_nat (cols (board w) - 1 - targetX b) <= fuel)%nat) ->
  runs doubled (moveRight_loop fuel this ;;; moveLeft_finish this) w.
Proof.
  intros Hf. apply runs_bind; [exact doubled_trans| |].
  - apply runs_moveRight_loop;
      auto using doubled_refl, doubled_slide, doubled_merge.
    exact doubled_trans.
  - intros _ w' _. apply runs_load_then; [exact doubled_refl|].
    intros b' _. apply runs_block_set, doubled_refl.
Qed.

(** After two merges the value has been doubled at least twice, whatever
    the rest of the move does. *)
Lemma twice_then_doubled (this : ref) b b2 (w2 w' : World) :
  heap w2 !! this = Some b2 ->
  value b2 = times2 (times2 (value b)) ->
  related doubled w2 w' ->
  exists b' k,
    heap w' !! this = Some b' /\
    value b' = Nat.iter k times2 (value b) /\ (2 <= k)%nat.
Proof.
  intros Hb2 Hv (_ & _ & HR).
  destruct (Forall2_lookup_l _ _ _ _ _ HR Hb2) as (b' & Hb' & k & Hk).
  exists b', (k + 2)%nat. split; [exact Hb'|]. split; [|lia].
  rewrite Hk, Hv, Nat.iter_add. reflexivity.
Qed.

Lemma Block_moveLeft_merges_twice (this t t2 : ref) b tb tb2 w :
  heap w !! this = Some b ->
  1 < targetX b ->
  Board_block_get (targetX b - 1) (gridY b) w = Ok (Some t) w ->
  heap w !! t = Some tb -> value tb = value b ->
  cell w (targetX b - 2) (gridY b) = Some t2 ->
  heap w !! t2 = Some tb2 -> t2 <> this ->
  value tb2 = times2 (value b) ->
  exists w' b' k,
    final (Block_moveLeft this w) = Some w' /\
    heap w' !! this = Some b' /\
    value b' = Nat.iter k times2 (value b) /\ (2 <= k)%nat.
Proof.
  intros Hb Hx Hget Ht Hv Hc2 Ht2 Hne Hv2.
  rewrite (Block_moveLeft_unfold this b w Hb).
  destruct (Z.to_nat (targetX b)) as [|[|n]] eqn:En; [lia|lia|].
  unfold bind at 1.
  rewrite (moveLeft_loop_merge (S n) this t b tb w Hb Ht Hv) by (lia || auto).
  set (b1 := with_target b (targetX b - 1) (times2 (value b))).
  set (w1 := merged this b (targetX b - 1) w).
  assert (Hb1 : heap w1 !! this = Some b1)
    by (apply (lookup_stored _ _ b), Hb).
  assert (Ht2' : heap w1 !! t2 = Some tb2).
  { unfold w1, merged. simpl. rewrite list_lookup_insert_ne by auto.
    exact Ht2. }
  assert (Hget2 : Board_block_get (targetX b1 - 1) (gridY b1) w1
                  = Ok (Some t2) w1).
  { destruct (Board_block_get_cases (targetX b - 1) (gridY b) w)
      as [[e He]|(_ & Hrx & Hry)]; [congruence|].
    apply Board_block_get_ok; simpl; try lia.
    replace (targetX b - 1 - 1) with (targetX b - 2) by lia. exact Hc2. }
  rewrite (moveLeft_loop_merge n this t2 b1 tb2 w1 Hb1 Ht2')
    by (simpl; auto; lia).
  set (b2 := with_target b1 (targetX b1 - 1) (times2 (value b1))).
  set (w2 := merged this b1 (targetX b1 - 1) w1).
  assert (Hb2 : heap w2 !! this = Some b2)
    by (apply (lookup_stored _ _ b1), Hb1).
  destruct (runs_moveLeft_tail n this w2) as (w' & F & HR).
  { intros b' Hb'. rewrite Hb2 in Hb'. injection Hb' as <-. simpl. lia. }
  destruct (twice_then_doubled this b b2 w2 w' Hb2 eq_refl HR)
    as (b' & k & H1 & H2 & H3).
  exists w', b', k. split; [exact F|]. auto.
Qed.

Lemma Block_moveRight_merges_twice (this t t2 : ref) b tb tb2 w :
  heap w !! this = Some b ->
  targetX b < cols (board w) - 2 ->
  Board_block_get (targetX b + 1) (gridY b) w = Ok (Some t) w ->
  heap w !! t = Some tb -> value tb = value b ->
  cell w (targetX b + 2) (gridY b) = Some t2 ->
  heap w !! t2 = Some tb2 -> t2 <> this ->
  value tb2 = times2 (value b) ->
  exists w' b' k,
    final (Block_moveRight this w) = Some w' /\
    heap w' !! this = Some b' /\
    value b' = Nat.iter k times2 (value b) /\ (2 <= k)%nat.
Proof.
  intros Hb Hx Hget Ht Hv Hc2 Ht2 Hne Hv2.
  rewrite (Block_moveRight_unfold this b w Hb).
  destruct (Z.to_nat (cols (board w) - 1 - targetX b)) as [|[|n]] eqn:En;
    [lia|lia|].
  unfold bind at 1.
  rewrite (moveRight_loop_merge (S n) this t b tb w Hb Ht Hv) by (lia || auto).
  set (b1 := with_target b (targetX b + 1) (times2 (value b))).
  set (w1 := merged this b (targetX b + 1) w).
  assert (Hb1 : heap w1 !! this = Some b1)
    by (apply (lookup_stored _ _ b), Hb).
  assert (Ht2' : heap w1 !! t2 = Some tb2).
  { unfold w1, merged. simpl. rewrite list_lookup_insert_ne by auto.
    exact Ht2. }
  assert (Hget2 : Board_block_get (targetX b1 + 1) (gridY b1) w1
                  = Ok (Some t2) w1).
  { destruct (Board_block_get_cases (targetX b + 1) (gridY b) w)
      as [[e He]|(_ & Hrx & Hry)]; [congruence|].
    destruct (Board_block_get_cases (targetX b + 1) (gridY b) w)
      as [[e He]|(_ & _ & _)]; [congruence|].
    apply Board_block_get_ok; simpl; try lia.
    replace (targetX b + 1 + 1) with (targetX b + 2) by lia. exact Hc2. }
  rewrite (moveRight_loop_merge n this t2 b1 tb2 w1 Hb1 Ht2')
    by (simpl; auto; lia).
  set (b2 := with_target b1 (targetX b1 + 1) (times2 (value b1))).
  set (w2 := merged this b1 (targetX b1 + 1) w1).
  assert (Hb2 : heap w2 !! this = Some b2)
    by (apply (lookup_stored _ _ b1), Hb1).
  destruct (runs_moveRight_tail n this w2) as (w' & F & HR).
  { intros b' Hb'. rewrite Hb2 in Hb'. injection Hb' as <-. simpl. lia. }
  destruct (twice_then_doubled this b b2 w2 w' Hb2 eq_refl HR)
    as (b' & k & H1 & H2 & H3).
  exists w', b', k. split; [exact F|]. auto.
Qed.

(** C2, as the code has it.  An iteration of the loop of [moveLeft], and
    likewise of [moveRight], goes one of four ways.  At the wall the loop
    stops.  Before an empty cell it moves the target one step toward the
    wall and goes on.  Before a tile of equal value it moves the target
    one step toward the wall, doubles the value of the moving tile and
    goes on with the next iteration from that state.  Before a tile of
    another value it stops.  So the loop stops only at the wall or before
    a tile of another value, and a tile merges again when the cell after
    the merge holds another tile of the doubled value: its value is then
    doubled at least twice within one [moveLeft] or [moveRight]. *)
Theorem merge_continues_the_loop
    (fuel : nat) (this : ref) (b : Block) (w : World) :
  heap w !! this = Some b ->
  ((targetX b <= 0 -> moveLeft_loop fuel this w = Ok tt w) /\
   (0 < targetX b ->
    Board_block_get (targetX b - 1) (gridY b) w = Ok None w ->
    moveLeft_loop (S fuel) this w =
    moveLeft_loop fuel this (slid this b (targetX b - 1) w)) /\
   (forall (t : ref) tb,
      0 < targetX b ->
      Board_block_get (targetX b - 1) (gridY b) w = Ok (Some t) w ->
      heap w !! t = Some tb -> value tb = value b ->
      moveLeft_loop (S fuel) this w =
      moveLeft_loop fuel this (merged this b (targetX b - 1) w)) /\
   (forall (t : ref) tb,
      0 < targetX b ->
      Board_block_get (targetX b - 1) (gridY b) w = Ok (Some t) w ->
      heap w !! t = Some tb -> value tb <> value b ->
      moveLeft_loop (S fuel) this w = Ok tt w)) /\
  ((cols (board w) - 1 <= targetX b ->
    moveRight_loop fuel this w = Ok tt w) /\
   (targetX b < cols (board w) - 1 ->
    Board_block_get (targetX b + 1) (gridY b) w = Ok None w ->
    moveRight_loop (S fuel) this w =
    moveRight_loop fuel this (slid this b (targetX b + 1) w)) /\
   (forall (t : ref) tb,
      targetX b < cols (board w) - 1 ->
      Board_block_get (targetX b + 1) (gridY b) w = Ok (Some t) w ->
      heap w !! t = Some tb -> value tb = value b ->
      moveRight_loop (S fuel) this w =
      moveRight_loop fuel this (merged this b (targetX b + 1) w)) /\
   (forall (t : ref) tb,
      targetX b < cols (board w) - 1 ->
      Board_block_get (targetX b + 1) (gridY b) w = Ok (Some t) w ->
      heap w !! t = Some tb -> value tb <> value b ->
      moveRight_loop (S fuel) this w = Ok tt w)) /\
  (forall (t t2 : ref) tb tb2,
     1 < targetX b ->
     Board_block_get (targetX b - 1) (gridY b) w = Ok (Some t) w ->
     heap w !! t = Some tb -> value tb = value b ->
     cell w (targetX b - 2) (gridY b) = Some t2 ->
     heap w !! t2 = Some tb2 -> t2 <> this ->
     value tb2 = times2 (value b) ->
     exists w' b' k,
       final (Block_moveLeft this w) = Some w' /\
       heap w' !! this = Some b' /\
       value b' = Nat.iter k times2 (value b) /\ (2 <= k)%nat) /\
  (forall (t t2 : ref) tb tb2,
     targetX b < cols (board w) - 2 ->
     Board_block_get (targetX b + 1) (gridY b) w = Ok (Some t) w ->
     heap w !! t = Some tb -> value tb = value b ->
     cell w (targetX b + 2) (gridY b) = Some t2 ->
     heap w !! t2 = Some tb2 -> t2 <> this ->
     value tb2 = times2 (value b) ->
     exists w' b' k,
       final (Block_moveRight this w) = Some w' /\
       heap w' !! this = Some b' /\
       value b' = Nat.iter k times2 (value b) /\ (2 <= k)%nat).
Proof.
  intros Hb. split; [|split; [|split]].
  - split; [|split; [|split]].
    + intros Hx. eapply moveLeft_loop_wall; eauto.
    + intros Hx Hget. eapply moveLeft_loop_empty; eauto.
    + intros t tb Hx Hget Ht Hv. eapply moveLeft_loop_merge; eauto.
    + intros t tb Hx Hget Ht Hv. eapply moveLeft_loop_blocked; eauto.
  - split; [|split; [|split]].
    + intros Hx. eapply moveRight_loop_wall; eauto.
    + intros Hx Hget. eapply moveRight_loop_empty; eauto.
    + intros t tb Hx Hget Ht Hv. eapply moveRight_loop_merge; eauto.
    + intros t tb Hx Hget Ht Hv. eapply moveRight_loop_blocked; eauto.
  - intros t t2 tb tb2. apply Block_moveLeft_merges_twice. exact Hb.
  - intros t t2 tb tb2. apply Block_moveRight_merges_twice. exact Hb.
Qed.

(** * The claims on concrete grids *)

(** ** C1 *)

(** C1 at a grid the program reaches: [start] puts a 2 at (2, 0) and a 4
    at (1, 3); after [Board.moveLeft] block 0 targets (0, 0) and is
    referenced by cell (0, 0) and still by cell (2, 0), the cell it moved
    out of, and block 1 by cells (0, 3) and (1, 3); this stays so when the
    transition completes with [update(1)].  The cells are not consistent
    with the positions the blocks record. *)
Theorem moved_tile_stays_in_old_cell :
  exists w0 w1 w2,
    Board_start 0 rnd_a 0 initial_world = Ok 6%nat w0 /\
    Board_moveLeft w0 = Ok tt w1 /\
    Board_update 1 w1 = Ok tt w2 /\
    heap w1 !! 0%nat = Some (mkBlock 2 2 0 0 0 0%Q 0%Q) /\
    cells_of w1 0%nat = [(0, 0); (2, 0)] /\
    cells_of w1 1%nat = [(0, 3); (1, 3)] /\
    heap w2 !! 0%nat = Some (mkBlock 2 0 0 0 0 0%Q 0%Q) /\
    cells_of w2 0%nat = [(0, 0); (2, 0)] /\
    ~ cells_consistent w1 /\ ~ cells_consistent w2.
Proof.
  do 3 eexists.
  split; [vm_compute; reflexivity|].
  split; [vm_compute; reflexivity|].
  split; [vm_compute; reflexivity|].
  split; [reflexivity|]. split; [reflexivity|]. split; [reflexivity|].
  split; [reflexivity|]. split; [reflexivity|].
  split; intros H;
    destruct (H 2 0 0%nat _ eq_refl eq_refl) as [Hx _]; discriminate Hx.
Qed.

(** ** C2 *)

(** C2 fails as stated: in the row 4, 2, 2, empty the tile of column 2
    merges with the 2 next to it and then with the 4 at the wall; its
    value goes from 2 to 8 within one [moveLeft]. *)
Lemma tile_merges_twice :
  exists w',
    Block_moveLeft 2%nat row_4_2_2_0 = Ok tt w' /\
    value <$> heap row_4_2_2_0 !! 2%nat = Some 2 /\
    value <$> heap w' !! 2%nat = Some 8 /\
    ~ merged_at_most_once 2 8.
Proof.
  eexists. split; [vm_compute; reflexivity|].
  split; [reflexivity|]. split; [reflexivity|].
  unfold merged_at_most_once. lia.
Qed.

Lemma merge_continues_the_loop_witness :
  (exists w' b' k,
     final (Block_moveLeft 2%nat row_4_2_2_0) = Some w' /\
     heap w' !! 2%nat = Some b' /\
     value b' = Nat.iter k times2 2 /\ (2 <= k)%nat) /\
  (exists w' b' k,
     final (Block_moveRight 0%nat row_0_2_2_4) = Some w' /\
     heap w' !! 0%nat = Some b' /\
     value b' = Nat.iter k times2 2 /\ (2 <= k)%nat).
Proof.
  split.
  - refine (proj1 (proj2 (proj2 (merge_continues_the_loop 0 2%nat
              (mkBlock 2 2 0 2 0 0%Q 0%Q) row_4_2_2_0 eq_refl)))
              1%nat 0%nat (mkBlock 2 1 0 1 0 0%Q 0%Q)
              (mkBlock 4 0 0 0 0 0%Q 0%Q) _ _ _ _ _ _ _ _).
    + simpl. lia.
    + vm_compute. reflexivity.
    + reflexivity.
    + reflexivity.
    + vm_compute. reflexivity.
    + reflexivity.
    + discriminate.
    + vm_compute. reflexivity.
  - refine (proj2 (proj2 (proj2 (merge_continues_the_loop 0 0%nat
              (mkBlock 2 1 0 1 0 0%Q 0%Q) row_0_2_2_4 eq_refl)))
              1%nat 2%nat (mkBlock 2 2 0 2 0 0%Q 0%Q)
              (mkBlock 4 3 0 3 0 0%Q 0%Q) _ _ _ _ _ _ _ _).
    + vm_compute. reflexivity.
    + vm_compute. reflexivity.
    + reflexivity.
    + reflexivity.
    + vm_compute. reflexivity.
    + reflexivity.
    + discriminate.
    + vm_compute. reflexivity.
Defined.

(** ** C3 *)

(** C3 fails as stated: [Board.moveLeft] on the row 2, empty, 2, 4 does
    not give 4, 4, empty, empty. *)
Lemma row_2_0_2_4_is_not_4_4 :
  exists w',
    Board_moveLeft (row_2_0_2_4 0) = Ok tt w' /\
    row_values (row_2_0_2_4 0) 0 = [Some 2; None; Some 2; Some 4] /\
    row_values w' 0 = [Some 4; Some 8; Some 4; Some 8] /\
    row_values w' 0 <> [Some 4; Some 4; None; None].
Proof.
  eexists. split; [vm_compute; reflexivity|].
  split; [reflexivity|]. split; [reflexivity|]. discriminate.
Qed.

(** C3, as the code has it: in every row of the 4 by 4 grid, on the row
    2, empty, 2, 4, [Board.moveLeft] merges the two 2's into a 4 at the
    wall (the tile that came from column 2 ends with value 4 and target
    column 0), and the original 4 merges in the same sweep as well: it
    ends with value 8, not 4. *)
Theorem row_2_0_2_4_moveLeft :
  Forall (fun y =>
    exists w',
      Board_moveLeft (row_2_0_2_4 y) = Ok tt w' /\
      row_values (row_2_0_2_4 y) y = [Some 2; None; Some 2; Some 4] /\
      heap (row_2_0_2_4 y) =
        [newBlockObj 2 0 y; newBlockObj 2 2 y; newBlockObj 4 3 y] /\
      value <$> heap w' !! 1%nat = Some 4 /\
      targetX <$> heap w' !! 1%nat = Some 0 /\
      value <$> heap w' !! 2%nat = Some 8)
    [0; 1; 2; 3].
Proof.
  repeat constructor;
    (eexists; split; [vm_compute; reflexivity|]; repeat split; reflexivity).
Qed.

(** ** C4 *)

Lemma full_world_full : full full_world.
Proof.
  intros x y Hx Hy.
  assert (Hc : cols (board full_world) = 4) by (vm_compute; reflexivity).
  assert (Hr : rows (board full_world) = 4) by (vm_compute; reflexivity).
  rewrite Hc in Hx. rewrite Hr in Hy.
  assert (Ex : x = 0 \/ x = 1 \/ x = 2 \/ x = 3) by lia.
  assert (Ey : y = 0 \/ y = 1 \/ y = 2 \/ y = 3) by lia.
  destruct Ex as [->|[->|[->| ->]]]; destruct Ey as [->|[->|[->| ->]]];
    vm_compute; discriminate.
Qed.

Lemma zero_in_unit_interval : unit_interval (fun _ => 0%Q).
Proof. intros k. split; [apply Qle_refl|reflexivity]. Qed.

(** C4 fails as stated: on a full 4 by 4 grid, with every draw equal to 0,
    [newBlock] neither returns nor throws, whatever number of iterations
    it is given. *)
Lemma spawn_on_full_grid_raises_nothing :
  ~ exists fuel, is_Some (final (Board_newBlock fuel (fun _ => 0%Q) 0
                                   full_world)).
Proof.
  intros [fuel [w' H]].
  rewrite (Board_newBlock_full fuel (fun _ => 0%Q) 0 full_world) in H.
  - discriminate H.
  - reflexivity.
  - reflexivity.
  - exact full_world_full.
  - exact zero_in_unit_interval.
Qed.

Lemma spawn_on_full_grid_never_stops_witness :
  Board_newBlock 1000 (fun _ => 0%Q) 0 full_world = Diverge.
Proof.
  apply (spawn_on_full_grid_never_stops full_world (fun _ => 0%Q) 1000 0).
  - reflexivity.
  - reflexivity.
  - exact full_world_full.
  - exact zero_in_unit_interval.
Defined.

(** ** C5 *)

(** C5 fails as stated: [Board.moveLeft] turns a tile spawned at (1, 0)
    into [moved_block], whose offset is zero although its grid position
    is not its target position; and so it is again after [update(0)]. *)
Lemma offset_zero_while_moving :
  (exists w', Board_moveLeft (world_of 4 4 [(2, 1, 0)]) = Ok tt w' /\
              heap w' !! 0%nat = Some moved_block) /\
  ~ (offset_zero moved_block <-> settled moved_block) /\
  ~ (offset_zero (Block_update 0 moved_block) <->
     settled (Block_update 0 moved_block)).
Proof.
  split; [eexists; split; [vm_compute; reflexivity|reflexivity]|].
  split; intros [H _];
    (destruct H as [H _]; [split; reflexivity|discriminate H]).
Qed.

Lemma offset_zero_iff_settled_after_update_witness :
  offset_zero (Block_update (1 # 2) moved_block) <->
  settled (Block_update (1 # 2) moved_block).
Proof.
  apply (offset_zero_iff_settled_after_update moved_block (1 # 2)).
  discriminate.
Defined.

(** ** C7 *)

(** C7 at a grid the program reaches: [start] puts a 4 at (0, 0) and a 2
    at (2, 0), and a left move follows.  The first right move makes row 0
    show 4, 4, 4, 4 and the second one 8, 8, 4, 4: block 0 goes from value
    4 at target column 0 to value 8 at target column 1.  The same happens
    on the grid with the fresh row empty, 4, 2, 2: the first right move
    gives empty, 4, 4, 4 and the second one empty, 8, 8, 4. *)
Theorem second_moveRight_changes_grid :
  (exists w0 w1 w2 w3,
     Board_start 0 rnd_b 0 initial_world = Ok 6%nat w0 /\
     Board_moveLeft w0 = Ok tt w1 /\
     Board_moveRight w1 = Ok tt w2 /\
     Board_moveRight w2 = Ok tt w3 /\
     row_values w2 0 = [Some 4; Some 4; Some 4; Some 4] /\
     row_values w3 0 = [Some 8; Some 8; Some 4; Some 4] /\
     heap w2 !! 0%nat = Some (mkBlock 4 0 0 0 0 0%Q 0%Q) /\
     heap w3 !! 0%nat = Some (mkBlock 8 0 0 1 0 0%Q 0%Q) /\
     w3 <> w2) /\
  (exists w2 w3,
     Board_moveRight row_0_4_2_2 = Ok tt w2 /\
     Board_moveRight w2 = Ok tt w3 /\
     row_values row_0_4_2_2 0 = [None; Some 4; Some 2; Some 2] /\
     row_values w2 0 = [None; Some 4; Some 4; Some 4] /\
     row_values w3 0 = [None; Some 8; Some 8; Some 4] /\
     w3 <> w2).
Proof.
  split.
  - do 4 eexists.
    split; [vm_compute; reflexivity|].
    split; [vm_compute; reflexivity|].
    split; [vm_compute; reflexivity|].
    split; [vm_compute; reflexivity|].
    repeat (split; [reflexivity|]). discriminate.
  - do 2 eexists.
    split; [vm_compute; reflexivity|].
    split; [vm_compute; reflexivity|].
    repeat (split; [reflexivity|]). discriminate.
Qed.

(** ** Witnesses *)

Lemma row_2_0_2_4_wf : wf_board (board (row_2_0_2_4 0)).
Proof.
  split; [simpl; lia|]. split; [simpl; lia|]. split; [reflexivity|].
  repeat constructor.
Qed.

Lemma cellAt_checks_range_witness :
  Board_block_get 4 0 (row_2_0_2_4 0)
  = Throw (RangeError 4 0 4) (row_2_0_2_4 0) /\
  Board_block_get 2 (-1) (row_2_0_2_4 0)
  = Throw (RangeError (-1) 0 4) (row_2_0_2_4 0) /\
  exists col c,
    blocks (board (row_2_0_2_4 0)) !! Z.to_nat 2 = Some col /\
    col !! Z.to_nat 0 = Some c /\
    Board_block_get 2 0 (row_2_0_2_4 0) = Ok c (row_2_0_2_4 0).
Proof.
  split; [|split].
  - apply (cellAt_checks_range (row_2_0_2_4 0) 4 0 row_2_0_2_4_wf).
    right. simpl. lia.
  - apply (cellAt_checks_range (row_2_0_2_4 0) 2 (-1) row_2_0_2_4_wf).
    + simpl. lia.
    + left. lia.
  - apply (cellAt_checks_range (row_2_0_2_4 0) 2 0 row_2_0_2_4_wf);
      simpl; lia.
Defined.

(** * Further properties of the code *)

(** ** Rules for runs that return *)

Lemma returns_ret {A} (a : A) w (Q : A -> World -> Prop) :
  Q a w -> returns (ret a) w Q.
Proof. intros H. exists a, w. split; [reflexivity|exact H]. Qed.

Lemma returns_bind {A B} (m : M A) (k : A -> M B) w (Q : B -> World -> Prop) :
  returns m w (fun a w1 => returns (k a) w1 Q) ->
  returns (a <- m ;; k a) w Q.
Proof.
  intros (a & w1 & Hm & b & w2 & Hk & HQ). exists b, w2.
  split; [|exact HQ]. unfold bind. rewrite Hm. exact Hk.
Qed.

Lemma returns_weaken {A} (m : M A) w (Q Q' : A -> World -> Prop) :
  returns m w Q -> (forall a w', Q a w' -> Q' a w') -> returns m w Q'.
Proof. intros (a & w' & Hm & HQ) H. exists a, w'. auto. Qed.

Lemma returns_for_each {A} (I : list A -> World -> Prop) (l : list A)
    (body : A -> M unit) w :
  I [] w ->
  (forall done a w1, a ∈ l -> I done w1 ->
     returns (body a) w1 (fun _ w2 => I (done ++ [a]) w2)) ->
  returns (for_each l body) w (fun _ w' => I l w').
Proof.
  intros H0 Hstep.
  assert (G : forall rest done w1,
             (forall a, a ∈ rest -> a ∈ l) -> I done w1 ->
             returns (for_each rest body) w1
               (fun _ w' => I (done ++ rest) w')).
  { induction rest as [|a rest IH]; intros done w1 Hin HI; simpl.
    - apply returns_ret. rewrite app_nil_r. exact HI.
    - apply returns_bind.
      eapply returns_weaken.
      + apply Hstep; [apply Hin; left|exact HI].
      + intros u w2 HI2. simpl.
        rewrite (cons_middle a done rest), app_assoc.
        apply IH; [|exact HI2]. intros a' Ha'. apply Hin. right. exact Ha'. }
  apply (G l [] w); auto.
Qed.

Lemma cells_in_snoc xs x ys :
  cells_in (xs ++ [x]) ys = cells_in xs ys ++ ((fun y => (x, y)) <$> ys).
Proof.
  unfold cells_in. rewrite bind_app. simpl. rewrite app_nil_r. reflexivity.
Qed.

(** The nested loops over columns and rows, with an invariant on the cells
    visited so far. *)
Lemma returns_for_each2 (I : list (Z * Z) -> World -> Prop) (xs ys : list Z)
    (body : Z -> Z -> M unit) w :
  I [] w ->
  (forall done x y w1, x ∈ xs -> y ∈ ys -> I done w1 ->
     returns (body x y) w1 (fun _ w2 => I (done ++ [(x, y)]) w2)) ->
  returns (for_each xs (fun x => for_each ys (fun y => body x y))) w
    (fun _ w' => I (cells_in xs ys) w').
Proof.
  intros H0 Hstep.
  apply (returns_for_each (fun dx w1 => I (cells_in dx ys) w1)); [exact H0|].
  intros dx x w1 Hx HI.
  eapply returns_weaken.
  - apply (returns_for_each
             (fun dy w2 => I (cells_in dx ys ++ ((fun y => (x, y)) <$> dy)) w2)).
    + simpl. rewrite app_nil_r. exact HI.
    + intros dy y w2 Hy HI2. eapply returns_weaken.
      * apply Hstep; [exact Hx|exact Hy|exact HI2].
      * intros u w3 HI3. simpl in HI3.
        rewrite fmap_app, app_assoc. exact HI3.
  - intros u w2 HI2. simpl in HI2. rewrite cells_in_snoc. exact HI2.
Qed.

Lemma elem_of_zrange lo hi z : z ∈ zrange lo hi <-> lo <= z < hi.
Proof.
  unfold zrange. rewrite list_elem_of_In, in_map_iff. split.
  - intros (i & <- & Hi). apply in_seq in Hi. lia.
  - intros H. exists (Z.to_nat (z - lo)). split; [lia|].
    apply in_seq. lia.
Qed.

Lemma elem_of_cells_in xs ys x y :
  (x, y) ∈ cells_in xs ys <-> x ∈ xs /\ y ∈ ys.
Proof.
  unfold cells_in. rewrite list_elem_of_bind. split.
  - intros (x' & Hy & Hx). apply list_elem_of_fmap in Hy.
    destruct Hy as (y' & E & Hy). injection E as -> ->. auto.
  - intros [Hx Hy]. exists x. split; [|exact Hx].
    apply list_elem_of_fmap. eauto.
Qed.

(** ** Cells of a well-formed board *)

Lemma js_get_insert {A} (l : list A) (x x' : Z) (c : A) :
  0 <= x -> (Z.to_nat x < length l)%nat ->
  js_get (<[Z.to_nat x := c]> l) x' =
  if decide (x' = x) then Some c else js_get l x'.
Proof.
  intros Hx Hl. unfold js_get. destruct (x' <? 0) eqn:E.
  - destruct (decide (x' = x)); [lia|reflexivity].
  - destruct (decide (x' = x)) as [->|Hne].
    + apply list_lookup_insert_eq. exact Hl.
    + apply list_lookup_insert_ne. lia.
Qed.

Lemma js_get_in_range {A} (l : list A) (x : Z) :
  0 <= x -> (Z.to_nat x < length l)%nat -> exists c, js_get l x = Some c.
Proof.
  intros Hx Hl. unfold js_get. destruct (x <? 0) eqn:E; [lia|].
  apply lookup_lt_is_Some_2. exact Hl.
Qed.

Lemma wf_board_column (bd : Board) (x : Z) :
  wf_board bd -> 0 <= x < cols bd ->
  exists col, js_get (blocks bd) x = Some col /\
              length col = Z.to_nat (rows bd).
Proof.
  intros (_ & _ & Hl & Hc) Hx.
  destruct (js_get_in_range (blocks bd) x) as [col Hcol]; [lia|lia|].
  exists col. split; [exact Hcol|].
  rewrite Forall_forall in Hc. apply Hc.
  unfold js_get in Hcol. destruct (x <? 0); [discriminate|].
  eapply list_elem_of_lookup_2, Hcol.
Qed.

(** [this.blocks[x][y] = v] inside the board: the cell holds [v], every
    other cell and the store are as before. *)
Lemma cell_write_in_range x y v w :
  wf_board (board w) ->
  0 <= x < cols (board w) -> 0 <= y < rows (board w) ->
  exists w',
    cell_write x y v w = Ok tt w' /\
    heap w' = heap w /\
    cols (board w') = cols (board w) /\ rows (board w') = rows (board w) /\
    wf_board (board w') /\
    forall x' y', cell w' x' y' =
                  if decide (x' = x /\ y' = y) then v else cell w x' y'.
Proof.
  intros Hwf Hx Hy.
  destruct (wf_board_column _ x Hwf Hx) as (col & Hcol & Hlen).
  destruct Hwf as (Hc0 & Hr0 & Hl & Hc).
  unfold cell_write. rewrite Hcol. eexists. split; [reflexivity|].
  assert (Hput : js_put col y v = <[Z.to_nat y := v]> col).
  { unfold js_put. destruct (y <? 0) eqn:E; [lia|].
    destruct (Z.to_nat y <? length col)%nat eqn:E2; [reflexivity|].
    apply Nat.ltb_ge in E2. lia. }
  rewrite Hput. simpl.
  split; [reflexivity|]. split; [reflexivity|]. split; [reflexivity|].
  split.
  - unfold wf_board. simpl. repeat split; try assumption.
    + rewrite length_insert. exact Hl.
    + apply Forall_insert; [exact Hc|]. rewrite length_insert. exact Hlen.
  - intros x' y'. unfold cell. simpl.
    rewrite js_get_insert by lia.
    destruct (decide (x' = x)) as [->|Hne].
    + simpl. rewrite js_get_insert by lia.
      destruct (decide (y' = y)) as [->|Hne].
      * rewrite decide_True by auto. reflexivity.
      * rewrite decide_False by tauto. rewrite Hcol. reflexivity.
    + rewrite decide_False by tauto. reflexivity.
Qed.

Lemma cell_in_range x y r w :
  wf_board (board w) -> cell w x y = Some r ->
  0 <= x < cols (board w) /\ 0 <= y < rows (board w).
Proof.
  intros (Hc0 & Hr0 & Hl & Hc) H. unfold cell, js_get in H.
  destruct (x <? 0) eqn:Ex; [discriminate|].
  destruct (blocks (board w) !! Z.to_nat x) as [col|] eqn:Ecol;
    [|discriminate].
  simpl in H. destruct (y <? 0) eqn:Ey; [discriminate|].
  destruct (col !! Z.to_nat y) eqn:Ecell; [|discriminate].
  rewrite Forall_forall in Hc.
  pose proof (Hc col (list_elem_of_lookup_2 _ _ _ Ecol)) as Hlen.
  apply lookup_lt_Some in Ecol. apply lookup_lt_Some in Ecell. lia.
Qed.

(** ** Well-formed worlds *)

Lemma cell_read_in_range x y w :
  wf_board (board w) -> 0 <= x < cols (board w) ->
  cell_read x y w = Ok (cell w x y) w.
Proof.
  intros Hwf Hx. destruct (wf_board_column _ x Hwf Hx) as (col & Hcol & _).
  unfold cell_read, cell. rewrite Hcol. reflexivity.
Qed.

Lemma Board_block_get_in_range x y w :
  wf_board (board w) ->
  0 <= x < cols (board w) -> 0 <= y < rows (board w) ->
  Board_block_get x y w = Ok (cell w x y) w.
Proof.
  intros Hwf Hx Hy. unfold Board_block_get, bind.
  rewrite assertRange_ok by lia. rewrite assertRange_ok by lia.
  apply cell_read_in_range; assumption.
Qed.

Lemma wf_world_load (r : ref) w :
  wf_world w -> (r < length (heap w))%nat ->
  exists b, heap w !! r = Some b /\ in_grid (board w) b.
Proof.
  intros (_ & Hg & _) Hr.
  destruct (lookup_lt_is_Some_2 (heap w) r Hr) as [b Hb].
  exists b. split; [exact Hb|].
  rewrite Forall_forall in Hg. apply Hg.
  eapply list_elem_of_lookup_2, Hb.
Qed.

Lemma wf_world_store (this : ref) b1 w :
  wf_world w -> in_grid (board w) b1 ->
  wf_world (mkWorld (<[this := b1]> (heap w)) (board w)).
Proof.
  intros (Hb & Hg & Hr) H1. split; [exact Hb|]. split.
  - simpl. apply Forall_insert; assumption.
  - intros x y r Hc. simpl. rewrite length_insert. apply (Hr x y r Hc).
Qed.

Lemma world_eta w : mkWorld (heap w) (board w) = w.
Proof. destruct w. reflexivity. Qed.

Lemma store_same (this : ref) b w :
  heap w !! this = Some b -> mkWorld (<[this := b]> (heap w)) (board w) = w.
Proof. intros H. rewrite list_insert_id by exact H. apply world_eta. Qed.

(** ** The relations of a move *)

Lemma moved_left_refl b : moved_left b b.
Proof.
  repeat split; try lia. exists 0%nat. split; [reflexivity|lia].
Qed.

Lemma moved_left_trans a b c :
  moved_left a b -> moved_left b c -> moved_left a c.
Proof.
  intros (A1 & A2 & A3 & A4 & A5 & A6 & A7 & k & A8 & A9)
         (B1 & B2 & B3 & B4 & B5 & B6 & B7 & j & B8 & B9).
  repeat split; try congruence; try lia.
  exists (j + k)%nat. split; [|lia].
  rewrite B8, A8, Nat.iter_add. reflexivity.
Qed.

Lemma moved_left_step b v :
  0 < targetX b -> v = value b \/ v = times2 (value b) ->
  moved_left b (with_target b (targetX b - 1) v).
Proof.
  intros Hx Hv. repeat split; simpl; try lia.
  destruct Hv as [-> | ->].
  - exists 0%nat. split; [reflexivity|lia].
  - exists 1%nat. split; [reflexivity|lia].
Qed.

Lemma moved_right_refl c b : moved_right c b b.
Proof.
  repeat split; try lia. exists 0%nat. split; [reflexivity|lia].
Qed.

Lemma moved_right_trans n a b c :
  moved_right n a b -> moved_right n b c -> moved_right n a c.
Proof.
  intros (A1 & A2 & A3 & A4 & A5 & A6 & A7 & k & A8 & A9)
         (B1 & B2 & B3 & B4 & B5 & B6 & B7 & j & B8 & B9).
  repeat split; try congruence; try lia.
  exists (j + k)%nat. split; [|lia].
  rewrite B8, A8, Nat.iter_add. reflexivity.
Qed.

Lemma moved_right_step n b v :
  targetX b < n - 1 -> v = value b \/ v = times2 (value b) ->
  moved_right n b (with_target b (targetX b + 1) v).
Proof.
  intros Hx Hv. repeat split; simpl; try lia.
  destruct Hv as [-> | ->].
  - exists 0%nat. split; [reflexivity|lia].
  - exists 1%nat. split; [reflexivity|lia].
Qed.

Lemma moved_left_in_grid bd b b' :
  in_grid bd b -> moved_left b b' -> in_grid bd b'.
Proof.
  intros (G1 & G2 & G3 & G4) (A1 & A2 & A3 & _ & _ & A6 & A7 & _).
  unfold in_grid. rewrite A1, A2, A3. repeat split; try lia.
Qed.

Lemma moved_right_in_grid bd b b' :
  in_grid bd b -> moved_right (cols bd) b b' -> in_grid bd b'.
Proof.
  intros (G1 & G2 & G3 & G4) (A1 & A2 & A3 & _ & _ & A6 & A7 & _).
  unfold in_grid. rewrite A1, A2, A3. repeat split; try lia.
Qed.

(** ** The loops of a move on a well-formed world *)

Lemma moveLeft_loop_spec fuel (this : ref) b w :
  wf_world w -> heap w !! this = Some b ->
  (Z.to_nat (targetX b) <= fuel)%nat ->
  exists b',
    moved_left b b' /\
    moveLeft_loop fuel this w =
    Ok tt (mkWorld (<[this := b']> (heap w)) (board w)).
Proof.
  revert b w. induction fuel as [|fuel IH]; intros b w Hwf Hb Hfuel.
  - exists b. split; [apply moved_left_refl|].
    simpl. unfold bind, load. rewrite Hb.
    destruct (0 <? targetX b) eqn:E; [lia|].
    rewrite store_same by exact Hb. reflexivity.
  - assert (Hin : in_grid (board w) b).
    { destruct Hwf as (_ & Hg & _). rewrite Forall_forall in Hg.
      apply Hg. eapply list_elem_of_lookup_2, Hb. }
    destruct Hin as (G1 & G2 & G3 & G4).
    assert (Hstep : forall v, 0 < targetX b ->
              v = value b \/ v = times2 (value b) ->
              exists b', moved_left b b' /\
                moveLeft_loop fuel this
                  (mkWorld (<[this := with_target b (targetX b - 1) v]>
                              (heap w)) (board w))
                = Ok tt (mkWorld (<[this := b']> (heap w)) (board w))).
    { intros v Hx Hv.
      pose proof (moved_left_step b v Hx Hv) as Hm.
      destruct (IH (with_target b (targetX b - 1) v)
                  (mkWorld (<[this := with_target b (targetX b - 1) v]>
                              (heap w)) (board w)))
        as (b' & Hm' & Heq).
      - apply wf_world_store; [exact Hwf|].
        eapply moved_left_in_grid; [|exact Hm]. repeat split; lia.
      - simpl. apply (lookup_stored _ _ b), Hb.
      - simpl. lia.
      - exists b'. split; [eapply moved_left_trans; eauto|].
        rewrite Heq. simpl. rewrite list_insert_insert_eq. reflexivity. }
    simpl. unfold bind at 1. unfold load at 1. rewrite Hb.
    destruct (0 <? targetX b) eqn:E.
    + unfold bind at 1.
      rewrite Board_block_get_in_range by (try apply Hwf; lia).
      destruct (cell w (targetX b - 1) (gridY b)) as [t|] eqn:Ec;
        cbv beta iota.
      * destruct (wf_world_load t w Hwf) as (tb & Htb & _).
        { destruct Hwf as (_ & _ & Hr). eapply Hr, Ec. }
        unfold bind at 1. unfold load at 1. rewrite Htb.
        destruct (value tb =? value b); cbv beta iota.
        -- apply Hstep; [lia|auto].
        -- exists b. split; [apply moved_left_refl|].
           rewrite store_same by exact Hb. reflexivity.
      * apply Hstep; [lia|auto].
    + exists b. split; [apply moved_left_refl|].
      rewrite store_same by exact Hb. reflexivity.
Qed.

Lemma moveRight_loop_spec fuel (this : ref) b w :
  wf_world w -> heap w !! this = Some b ->
  (Z.to_nat (cols (board w) - 1 - targetX b) <= fuel)%nat ->
  exists b',
    moved_right (cols (board w)) b b' /\
    moveRight_loop fuel this w =
    Ok tt (mkWorld (<[this := b']> (heap w)) (board w)).
Proof.
  revert b w. induction fuel as [|fuel IH]; intros b w Hwf Hb Hfuel.
  - exists b. split; [apply moved_right_refl|].
    simpl. unfold bind, load. rewrite Hb.
    destruct (targetX b <? cols (board w) - 1) eqn:E; [lia|].
    rewrite store_same by exact Hb. reflexivity.
  - assert (Hin : in_grid (board w) b).
    { destruct Hwf as (_ & Hg & _). rewrite Forall_forall in Hg.
      apply Hg. eapply list_elem_of_lookup_2, Hb. }
    destruct Hin as (G1 & G2 & G3 & G4).
    assert (Hstep : forall v, targetX b < cols (board w) - 1 ->
              v = value b \/ v = times2 (value b) ->
              exists b', moved_right (cols (board w)) b b' /\
                moveRight_loop fuel this
                  (mkWorld (<[this := with_target b (targetX b + 1) v]>
                              (heap w)) (board w))
                = Ok tt (mkWorld (<[this := b']> (heap w)) (board w))).
    { intros v Hx Hv.
      pose proof (moved_right_step (cols (board w)) b v Hx Hv) as Hm.
      destruct (IH (with_target b (targetX b + 1) v)
                  (mkWorld (<[this := with_target b (targetX b + 1) v]>
                              (heap w)) (board w)))
        as (b' & Hm' & Heq).
      - apply wf_world_store; [exact Hwf|].
        eapply moved_right_in_grid; [|exact Hm]. repeat split; lia.
      - simpl. apply (lookup_stored _ _ b), Hb.
      - simpl. lia.
      - exists b'. split; [eapply moved_right_trans; eauto|].
        rewrite Heq. simpl. rewrite list_insert_insert_eq. reflexivity. }
    simpl. unfold bind at 1. unfold load at 1. rewrite Hb.
    destruct (targetX b <? cols (board w) - 1) eqn:E.
    + unfold bind at 1.
      rewrite Board_block_get_in_range by (try apply Hwf; lia).
      destruct (cell w (targetX b + 1) (gridY b)) as [t|] eqn:Ec;
        cbv beta iota.
      * destruct (wf_world_load t w Hwf) as (tb & Htb & _).
        { destruct Hwf as (_ & _ & Hr). eapply Hr, Ec. }
        unfold bind at 1. unfold load at 1. rewrite Htb.
        destruct (value tb =? value b); cbv beta iota.
        -- apply Hstep; [lia|auto].
        -- exists b. split; [apply moved_right_refl|].
           rewrite store_same by exact Hb. reflexivity.
      * apply Hstep; [lia|auto].
    + exists b. split; [apply moved_right_refl|].
      rewrite store_same by exact Hb. reflexivity.
Qed.

Lemma in_grid_dims bd bd' b :
  cols bd' = cols bd -> rows bd' = rows bd -> in_grid bd b -> in_grid bd' b.
Proof. unfold in_grid. intros -> ->. auto. Qed.

(** Binding a block to the cell of its target. *)
Lemma move_finish_spec (this : ref) b w :
  wf_world w -> heap w !! this = Some b ->
  exists w',
    moveLeft_finish this w = Ok tt w' /\
    heap w' = heap w /\
    cols (board w') = cols (board w) /\ rows (board w') = rows (board w) /\
    wf_world w' /\
    forall x y, cell w' x y =
                if decide (x = targetX b /\ y = targetY b) then Some this
                else cell w x y.
Proof.
  intros Hwf Hb.
  destruct (wf_world_load this w Hwf) as (b0 & Hb0 & G1 & G2 & G3 & G4).
  { eapply lookup_lt_Some, Hb. }
  assert (b0 = b) as -> by congruence.
  destruct Hwf as (Hbd & Hg & Hr).
  destruct (cell_write_in_range (targetX b) (targetY b) (Some this) w
              Hbd G3 G4) as (w' & Hw & Hh & Hc & Hrw & Hbd' & Hcell).
  exists w'. split.
  - unfold moveLeft_finish, bind, load. rewrite Hb.
    unfold Board_block_set, bind.
    rewrite assertRange_ok by lia. rewrite assertRange_ok by lia.
    exact Hw.
  - split; [exact Hh|]. split; [exact Hc|]. split; [exact Hrw|].
    split; [|exact Hcell].
    split; [exact Hbd'|]. split.
    + rewrite Hh. eapply Forall_impl; [exact Hg|].
      intros b1. apply in_grid_dims; assumption.
    + intros x y r. rewrite Hcell, Hh. destruct (decide _).
      * intros E. injection E as <-. eapply lookup_lt_Some, Hb.
      * apply Hr.
Qed.

Lemma Block_moveLeft_spec (this : ref) b w :
  wf_world w -> heap w !! this = Some b ->
  exists b' w',
    moved_left b b' /\
    Block_moveLeft this w = Ok tt w' /\
    heap w' = <[this := b']> (heap w) /\
    cols (board w') = cols (board w) /\ rows (board w') = rows (board w) /\
    wf_world w' /\
    forall x y, cell w' x y =
                if decide (x = targetX b' /\ y = targetY b') then Some this
                else cell w x y.
Proof.
  intros Hwf Hb.
  destruct (moveLeft_loop_spec (Z.to_nat (targetX b)) this b w Hwf Hb)
    as (b' & Hm & Hloop); [lia|].
  set (w1 := mkWorld (<[this := b']> (heap w)) (board w)) in *.
  assert (Hb1 : heap w1 !! this = Some b') by (apply (lookup_stored _ _ b), Hb).
  assert (Hwf1 : wf_world w1).
  { apply wf_world_store; [exact Hwf|].
    eapply moved_left_in_grid; [|exact Hm].
    destruct Hwf as (_ & Hg & _). rewrite Forall_forall in Hg.
    apply Hg. eapply list_elem_of_lookup_2, Hb. }
  destruct (move_finish_spec this b' w1 Hwf1 Hb1)
    as (w' & Hf & Hh & Hc & Hr & Hwf' & Hcell).
  exists b', w'. split; [exact Hm|]. split.
  - rewrite (Block_moveLeft_unfold this b w Hb). unfold bind.
    rewrite Hloop. exact Hf.
  - split; [exact Hh|]. split; [exact Hc|]. split; [exact Hr|].
    split; [exact Hwf'|exact Hcell].
Qed.

Lemma Block_moveRight_spec (this : ref) b w :
  wf_world w -> heap w !! this = Some b ->
  exists b' w',
    moved_right (cols (board w)) b b' /\
    Block_moveRight this w = Ok tt w' /\
    heap w' = <[this := b']> (heap w) /\
    cols (board w') = cols (board w) /\ rows (board w') = rows (board w) /\
    wf_world w' /\
    forall x y, cell w' x y =
                if decide (x = targetX b' /\ y = targetY b') then Some this
                else cell w x y.
Proof.
  intros Hwf Hb.
  destruct (moveRight_loop_spec (Z.to_nat (cols (board w) - 1 - targetX b))
              this b w Hwf Hb) as (b' & Hm & Hloop); [lia|].
  set (w1 := mkWorld (<[this := b']> (heap w)) (board w)) in *.
  assert (Hb1 : heap w1 !! this = Some b') by (apply (lookup_stored _ _ b), Hb).
  assert (Hwf1 : wf_world w1).
  { apply wf_world_store; [exact Hwf|].
    eapply moved_right_in_grid; [|exact Hm].
    destruct Hwf as (_ & Hg & _). rewrite Forall_forall in Hg.
    apply Hg. eapply list_elem_of_lookup_2, Hb. }
  destruct (move_finish_spec this b' w1 Hwf1 Hb1)
    as (w' & Hf & Hh & Hc & Hr & Hwf' & Hcell).
  exists b', w'. split; [exact Hm|]. split.
  - unfold Block_moveRight. unfold bind at 1. unfold load at 1.
    rewrite Hb. unfold bind at 1. rewrite Hloop. exact Hf.
  - split; [exact Hh|]. split; [exact Hc|]. split; [exact Hr|].
    split; [exact Hwf'|exact Hcell].
Qed.

(** ** The sweeps on a well-formed world *)

Lemma cells_kept_refl w : cells_kept w w.
Proof. intros x y H. exact H. Qed.

Lemma cells_kept_trans w1 w2 w3 :
  cells_kept w1 w2 -> cells_kept w2 w3 -> cells_kept w1 w3.
Proof. intros H1 H2 x y H. apply H2, H1, H. Qed.

Lemma sweep_spec (R : Z -> Block -> Block -> Prop) (f : ref -> M unit) xs w :
  (forall n b, R n b b) -> (forall n a b c, R n a b -> R n b c -> R n a c) ->
  block_method R f ->
  (forall x, x ∈ xs -> 0 <= x < cols (board w)) ->
  wf_world w ->
  exists w',
    sweep xs f w = Ok tt w' /\
    wf_world w' /\ related (R (cols (board w))) w w' /\ cells_kept w w'.
Proof.
  intros Hrefl Htrans Hf Hxs Hwf.
  destruct (returns_for_each2
              (fun _ w1 => wf_world w1 /\
                         related (R (cols (board w))) w w1 /\
                         cells_kept w w1)
              xs (zrange 0 (rows (board w))) (on_cell f) w)
    as ([] & w' & Hrun & HI).
  - split; [exact Hwf|]. split; [apply related_refl, Hrefl|].
    apply cells_kept_refl.
  - intros done x y w1 Hx Hy (Hwf1 & Hrel & Hk).
    assert (Hc : cols (board w1) = cols (board w)) by apply Hrel.
    unfold returns, on_cell, bind.
    rewrite cell_read_in_range;
      [|apply Hwf1|rewrite Hc; apply Hxs, Hx].
    destruct (cell w1 x y) as [r|] eqn:Ec.
    + destruct (wf_world_load r w1 Hwf1) as (b & Hb & _).
      { destruct Hwf1 as (_ & _ & Hr). eapply Hr, Ec. }
      destruct (Hf r b w1 Hwf1 Hb)
        as (b' & w2 & HR & Hrun & Hh & Hc2 & Hr2 & Hwf2 & Hk2).
      exists tt, w2. split; [exact Hrun|].
      split; [exact Hwf2|]. split.
      * eapply related_trans; [apply Htrans|exact Hrel|].
        rewrite Hc in HR.
        destruct (related_store (R (cols (board w))) (Hrefl _) r b b' w1
                    Hb HR) as (_ & _ & H2).
        repeat split; try assumption. rewrite Hh. exact H2.
      * eapply cells_kept_trans; eauto.
    + exists tt, w1. split; [reflexivity|]. auto.
  - exists w'. split; [exact Hrun|exact HI].
Qed.

Lemma Block_moveLeft_method :
  block_method (fun _ => moved_left) Block_moveLeft.
Proof.
  intros this b w Hwf Hb.
  destruct (Block_moveLeft_spec this b w Hwf Hb)
    as (b' & w' & Hm & Hrun & Hh & Hc & Hr & Hwf' & Hcell).
  exists b', w'. repeat (split; [assumption|]).
  intros x y. rewrite Hcell. destruct (decide _); [discriminate|auto].
Qed.

Lemma Block_moveRight_method : block_method moved_right Block_moveRight.
Proof.
  intros this b w Hwf Hb.
  destruct (Block_moveRight_spec this b w Hwf Hb)
    as (b' & w' & Hm & Hrun & Hh & Hc & Hr & Hwf' & Hcell).
  exists b', w'. repeat (split; [assumption|]).
  intros x y. rewrite Hcell. destruct (decide _); [discriminate|auto].
Qed.

Lemma Board_moveLeft_wf (w : World) :
  wf_world w ->
  exists w',
    Board_moveLeft w = Ok tt w' /\
    wf_world w' /\ related moved_left w w' /\ cells_kept w w'.
Proof.
  intros Hwf. unfold Board_moveLeft.
  apply (sweep_spec (fun _ => moved_left)); auto.
  - intros _. apply moved_left_refl.
  - intros _. apply moved_left_trans.
  - apply Block_moveLeft_method.
  - intros x Hx. apply elem_of_zrange in Hx. lia.
Qed.

(** X5: on a well-formed world [Board.moveLeft] returns without an
    exception, in a well-formed world.  Every block keeps its grid
    position, its row and its offsets; its target column does not grow and
    stays on the board; its value is doubled some number of times, as
    binary64 doubles it (exactly below [Infinity], which a doubling that
    overflows gives and every later one keeps), with at most one doubling
    per column moved.  No cell is emptied. *)
Theorem Board_moveLeft_safe (w : World) :
  wf_world w ->
  exists w',
    Board_moveLeft w = Ok tt w' /\
    wf_world w' /\ related moved_left w w' /\ cells_kept w w'.
Proof. apply Board_moveLeft_wf. Qed.

Lemma Board_moveRight_wf (w : World) :
  wf_world w ->
  exists w',
    Board_moveRight w = Ok tt w' /\
    wf_world w' /\
    related (moved_right (cols (board w))) w w' /\ cells_kept w w'.
Proof.
  intros Hwf. unfold Board_moveRight.
  apply (sweep_spec moved_right); auto.
  - apply moved_right_refl.
  - apply moved_right_trans.
  - apply Block_moveRight_method.
  - intros x Hx. apply elem_of_zrange in Hx. lia.
Qed.

(** X6: the same for [Board.moveRight], where the target column does not
    shrink and stays below the number of columns; the value is doubled, as
    binary64 doubles it, at most once per column moved. *)
Theorem Board_moveRight_safe (w : World) :
  wf_world w ->
  exists w',
    Board_moveRight w = Ok tt w' /\
    wf_world w' /\
    related (moved_right (cols (board w))) w w' /\ cells_kept w w'.
Proof. apply Board_moveRight_wf. Qed.

(** ** Board.update *)

Lemma Block_update_idem delta b :
  Block_update delta (Block_update delta b) = Block_update delta b.
Proof.
  unfold Block_update. destruct (Qle_bool 1 delta); reflexivity.
Qed.

Lemma in_grid_update bd delta b :
  in_grid bd b -> in_grid bd (Block_update delta b).
Proof.
  intros (G1 & G2 & G3 & G4). unfold Block_update, in_grid.
  destruct (Qle_bool 1 delta); simpl; auto.
Qed.

Lemma Board_update_wf (delta : Q) (w : World) :
  wf_world w ->
  exists w',
    Board_update delta w = Ok tt w' /\
    board w' = board w /\ wf_world w' /\
    forall (r : ref) b, heap w !! r = Some b ->
      (referenced w r -> heap w' !! r = Some (Block_update delta b)) /\
      (~ referenced w r -> heap w' !! r = Some b).
Proof.
  intros Hwf. unfold Board_update, sweep.
  set (xs := zrange 0 (cols (board w))).
  set (ys := zrange 0 (rows (board w))).
  destruct (returns_for_each2
    (fun done w1 =>
       board w1 = board w /\ wf_world w1 /\
       forall (r : ref) b, heap w !! r = Some b ->
         (heap w1 !! r = Some (Block_update delta b) /\ referenced w r) \/
         (heap w1 !! r = Some b /\
          forall x y, (x, y) ∈ done -> cell w x y <> Some r))
    xs ys
    (on_cell (fun r => b <- load r ;; store r (Block_update delta b))) w)
    as ([] & w' & Hrun & Hbd & Hwf' & HI).
  - split; [reflexivity|]. split; [exact Hwf|].
    intros r b Hb. right. split; [exact Hb|].
    intros x y Hin. inversion Hin.
  - intros done x y w1 Hx Hy (Hbd & Hwf1 & HI).
    apply elem_of_zrange in Hx. apply elem_of_zrange in Hy.
    assert (Hcell : cell w1 x y = cell w x y)
      by (unfold cell; rewrite Hbd; reflexivity).
    unfold returns, on_cell. unfold bind at 1.
    rewrite cell_read_in_range; [|apply Hwf1|rewrite Hbd; lia].
    rewrite Hcell.
    destruct (cell w x y) as [r0|] eqn:Ec.
    + destruct (wf_world_load r0 w1 Hwf1) as (b1 & Hb1 & Hg1).
      { destruct Hwf1 as (_ & _ & Hr). eapply Hr. exact Hcell. }
      exists tt. eexists. split.
      { unfold bind, load. rewrite Hb1. reflexivity. }
      split; [exact Hbd|]. split.
      { apply wf_world_store; [exact Hwf1|]. apply in_grid_update, Hg1. }
      intros r b Hb. simpl. destruct (decide (r = r0)) as [->|Hne].
      * left. split; [|exists x, y; auto].
        rewrite (lookup_stored _ _ b1) by exact Hb1. f_equal.
        destruct (HI r0 b Hb) as [[H1 _]|[H1 _]];
          rewrite Hb1 in H1; injection H1 as ->;
          [apply Block_update_idem|reflexivity].
      * rewrite list_lookup_insert_ne by auto.
        destruct (HI r b Hb) as [H1|[H1 H2]]; [left; exact H1|].
        right. split; [exact H1|]. intros x' y' Hin.
        apply elem_of_app in Hin. destruct Hin as [Hin|Hin].
        -- apply H2, Hin.
        -- apply list_elem_of_singleton in Hin. injection Hin as -> ->.
           rewrite Ec. congruence.
    + exists tt, w1. split; [reflexivity|]. split; [exact Hbd|].
      split; [exact Hwf1|]. intros r b Hb.
      destruct (HI r b Hb) as [H1|[H1 H2]]; [left; exact H1|].
      right. split; [exact H1|]. intros x' y' Hin.
      apply elem_of_app in Hin. destruct Hin as [Hin|Hin].
      * apply H2, Hin.
      * apply list_elem_of_singleton in Hin. injection Hin as -> ->.
        rewrite Ec. discriminate.
  - exists w'. split; [exact Hrun|]. split; [exact Hbd|].
    split; [exact Hwf'|]. intros r b Hb.
    destruct (HI r b Hb) as [[H1 H2]|[H1 H2]]; split; intros H; auto.
    + contradiction.
    + exfalso. destruct H as (x & y & Hx & Hy & Hc).
      apply (H2 x y); [|exact Hc].
      apply elem_of_cells_in. split; apply elem_of_zrange; assumption.
Qed.

(** X7: on a well-formed world [Board.update(delta)] returns without an
    exception and leaves the board as it is; a block that some cell
    references becomes [Block.update(delta)] of itself, also when several
    cells reference it, and a block that no cell references is left
    alone. *)
Theorem Board_update_spec (delta : Q) (w : World) :
  wf_world w ->
  exists w',
    Board_update delta w = Ok tt w' /\
    board w' = board w /\ wf_world w' /\
    forall (r : ref) b, heap w !! r = Some b ->
      (referenced w r -> heap w' !! r = Some (Block_update delta b)) /\
      (~ referenced w r -> heap w' !! r = Some b).
Proof. apply Board_update_wf. Qed.

(** ** Board.newBlock *)

Lemma newBlock_loop_wf fuel rnd i x y w :
  wf_board (board w) -> 0 < cols (board w) -> 0 < rows (board w) ->
  unit_interval rnd ->
  0 <= x < cols (board w) -> 0 <= y < rows (board w) ->
  match newBlock_loop fuel rnd i x y w with
  | Ok (x', y', j) w' =>
      w' = w /\ 0 <= x' < cols (board w) /\ 0 <= y' < rows (board w) /\
      cell w x' y' = None /\ (i <= j)%nat
  | Throw _ _ => False
  | Diverge => True
  end.
Proof.
  intros Hwf Hc Hr Hrnd. revert i x y.
  induction fuel as [|fuel IH]; intros i x y Hx Hy; simpl;
    unfold bind; rewrite cell_read_in_range by assumption;
    destruct (cell w x y) eqn:Ec; try exact I;
    try (unfold ret; repeat split; auto; lia).
  specialize (IH (i + 2)%nat
                (random_int (rnd i) (cols (board w)))
                (random_int (rnd (i + 1)%nat) (rows (board w)))).
  destruct (newBlock_loop fuel rnd (i + 2) _ _ w) as [[[x' y'] j] w'|e w'|];
    try apply IH; try (apply random_int_range; try assumption; apply Hrnd).
  destruct IH as (H1 & H2 & H3 & H4 & H5);
    try (apply random_int_range; try assumption; apply Hrnd).
  repeat split; auto; lia.
Qed.

Lemma newBlockObj_in_grid bd v x y :
  0 <= x < cols bd -> 0 <= y < rows bd -> in_grid bd (newBlockObj v x y).
Proof. intros Hx Hy. repeat split; simpl; lia. Qed.

Lemma Board_newBlock_wf (fuel : nat) (rnd : nat -> Q) (i : nat) (w : World) :
  wf_world w -> 0 < cols (board w) -> 0 < rows (board w) ->
  unit_interval rnd ->
  match Board_newBlock fuel rnd i w with
  | Ok j w' =>
      exists x y v,
        0 <= x < cols (board w) /\ 0 <= y < rows (board w) /\
        cell w x y = None /\ (v = 2 \/ v = 4 \/ v = 6) /\
        (v = 6 -> exists k, (just_below_one <= rnd k)%Q) /\
        spawned w w' v x y /\ wf_world w' /\ (i + 3 <= j)%nat
  | Throw _ _ => False
  | Diverge => True
  end.
Proof.
  intros Hwf Hc Hr Hrnd. unfold Board_newBlock, bind.
  pose proof (newBlock_loop_wf fuel rnd (i + 2)
                (random_int (rnd i) (cols (board w)))
                (random_int (rnd (i + 1)%nat) (rows (board w))) w) as H.
  destruct (newBlock_loop _ _ _ _ _ w) as [[[x y] j] w'|e w'|];
    [|apply H; try apply Hwf; try assumption;
        apply random_int_range; try assumption; apply Hrnd|exact I].
  destruct H as (-> & Hx & Hy & Hcell & Hj);
    try apply Hwf; try assumption;
    try (apply random_int_range; try assumption; apply Hrnd).
  unfold alloc. cbv beta iota.
  set (b := newBlockObj (spawn_value (rnd j)) x y).
  set (w1 := mkWorld (heap w ++ [b]) (board w)).
  destruct Hwf as (Hbd & Hg & Hrv).
  destruct (cell_write_in_range x y (@Some ref (length (heap w))) w1 Hbd Hx Hy)
    as (w' & Hw & Hh & Hc' & Hr' & Hbd' & Hcells).
  rewrite Hw. unfold ret.
  exists x, y, (spawn_value (rnd j)).
  split; [exact Hx|]. split; [exact Hy|]. split; [exact Hcell|].
  split; [destruct (Hrnd j); apply spawn_value_cases; assumption|].
  split.
  { intros H6. exists j. apply Qnot_lt_le. intros Hlt.
    destruct (Hrnd j) as [H0 _].
    destruct (spawn_value_below (rnd j) H0 Hlt) as [E|E];
      rewrite E in H6; discriminate H6. }
  split; [|split; [|lia]].
  - split; [exact Hh|]. split; [exact Hc'|]. split; [exact Hr'|].
    exact Hcells.
  - split; [exact Hbd'|]. split.
    + rewrite Hh. simpl. apply Forall_app. split.
      * eapply Forall_impl; [exact Hg|]. intros b1.
        apply in_grid_dims; assumption.
      * constructor; [|constructor].
        apply (in_grid_dims (board w)); try assumption.
        apply newBlockObj_in_grid; assumption.
    + intros x' y' r. rewrite Hcells, Hh. simpl. rewrite length_app. simpl.
      destruct (decide _).
      * intros E. injection E as <-. lia.
      * intros E. pose proof (Hrv x' y' r E). lia.
Qed.





(** ** Board.start *)

Lemma clear_spec w :
  wf_world w ->
  exists w1,
    for_each (zrange 0 (cols (board w))) (fun x =>
      for_each (zrange 0 (rows (board w))) (fun y => cell_write x y None)) w
    = Ok tt w1 /\
    heap w1 = heap w /\
    cols (board w1) = cols (board w) /\ rows (board w1) = rows (board w) /\
    wf_world w1 /\ forall x y, cell w1 x y = None.
Proof.
  intros (Hbd & Hg & Hrv).
  destruct (returns_for_each2
    (fun done w1 =>
       heap w1 = heap w /\ cols (board w1) = cols (board w) /\
       rows (board w1) = rows (board w) /\ wf_board (board w1) /\
       forall x y, (x, y) ∈ done -> cell w1 x y = None)
    (zrange 0 (cols (board w))) (zrange 0 (rows (board w)))
    (fun x y => cell_write x y None) w)
    as ([] & w1 & Hrun & Hh & Hc & Hr & Hbd1 & Hnone).
  - split; [reflexivity|]. split; [reflexivity|]. split; [reflexivity|].
    split; [exact Hbd|]. intros x y Hin. inversion Hin.
  - intros done x y w1 Hx Hy (Hh & Hc & Hr & Hbd1 & Hnone).
    apply elem_of_zrange in Hx. apply elem_of_zrange in Hy.
    destruct (cell_write_in_range x y None w1 Hbd1)
      as (w2 & Hw & Hh2 & Hc2 & Hr2 & Hbd2 & Hcells); [lia|lia|].
    exists tt, w2. split; [exact Hw|].
    split; [congruence|]. split; [congruence|]. split; [congruence|].
    split; [exact Hbd2|].
    intros x' y' Hin. rewrite Hcells. destruct (decide _); [reflexivity|].
    apply elem_of_app in Hin. destruct Hin as [Hin|Hin]; [auto|].
    apply list_elem_of_singleton in Hin. injection Hin as -> ->. tauto.
  - exists w1. split; [exact Hrun|].
    split; [exact Hh|]. split; [exact Hc|]. split; [exact Hr|].
    assert (Hall : forall x y, cell w1 x y = None).
    { intros x y. destruct (cell w1 x y) as [r|] eqn:Ec; [|reflexivity].
      destruct (cell_in_range x y r w1 Hbd1 Ec) as [Hx Hy].
      rewrite <- Ec. apply Hnone, elem_of_cells_in.
      split; apply elem_of_zrange; lia. }
    split; [|exact Hall]. split; [exact Hbd1|]. split.
    + rewrite Hh. eapply Forall_impl; [exact Hg|]. intros b.
      apply in_grid_dims; assumption.
    + intros x y r. rewrite Hall. discriminate.
Qed.

Lemma Board_start_wf (fuel : nat) (rnd : nat -> Q) (i : nat) (w : World) :
  wf_world w -> 0 < cols (board w) -> 0 < rows (board w) ->
  unit_interval rnd ->
  match Board_start fuel rnd i w with
  | Ok j w' =>
      exists x1 y1 v1 x2 y2 v2,
        (x1, y1) <> (x2, y2) /\
        0 <= x1 < cols (board w) /\ 0 <= y1 < rows (board w) /\
        0 <= x2 < cols (board w) /\ 0 <= y2 < rows (board w) /\
        (v1 = 2 \/ v1 = 4 \/ v1 = 6) /\ (v2 = 2 \/ v2 = 4 \/ v2 = 6) /\
        (v1 = 6 \/ v2 = 6 -> exists k, (just_below_one <= rnd k)%Q) /\
        heap w' = heap w ++ [newBlockObj v1 x1 y1; newBlockObj v2 x2 y2] /\
        (forall x y,
           cell w' x y =
           if decide (x = x1 /\ y = y1) then @Some ref (length (heap w))
           else if decide (x = x2 /\ y = y2)
                then @Some ref (S (length (heap w)))
                else None) /\
        wf_world w' /\ (i + 6 <= j)%nat
  | Throw _ _ => False
  | Diverge => True
  end.
Proof.
  intros Hwf Hc Hr Hrnd.
  destruct (clear_spec w Hwf) as (w1 & Hclear & Hh1 & Hc1 & Hr1 & Hwf1 & Hnone).
  unfold Board_start. unfold bind at 1. rewrite Hclear.
  unfold bind at 1.
  pose proof (Board_newBlock_wf fuel rnd i w1 Hwf1) as S1.
  rewrite Hc1, Hr1 in S1. specialize (S1 Hc Hr Hrnd).
  destruct (Board_newBlock fuel rnd i w1) as [j w2|e w2|];
    [|exact S1|exact I].
  destruct S1 as (x1 & y1 & v1 & Hx1 & Hy1 & _ & Hv1 & Hs1 & Hsp1 & Hwf2 & Hj).
  destruct Hsp1 as (Hh2 & Hc2 & Hr2 & Hcells2).
  pose proof (Board_newBlock_wf fuel rnd j w2 Hwf2) as S2.
  rewrite Hc2, Hc1, Hr2, Hr1 in S2. specialize (S2 Hc Hr Hrnd).
  destruct (Board_newBlock fuel rnd j w2) as [j' w3|e w3|];
    [|exact S2|exact I].
  destruct S2 as (x2 & y2 & v2 & Hx2 & Hy2 & He2 & Hv2 & Hs2 & Hsp2 & Hwf3 &
                  Hj').
  destruct Hsp2 as (Hh3 & Hc3 & Hr3 & Hcells3).
  assert (Hne : (x1, y1) <> (x2, y2)).
  { intros E. injection E as <- <-. rewrite Hcells2 in He2.
    rewrite decide_True in He2 by auto. discriminate. }
  exists x1, y1, v1, x2, y2, v2.
  split; [exact Hne|]. repeat (split; [assumption|]).
  split; [intros [E|E]; [apply Hs1|apply Hs2]; exact E|].
  split; [|split; [|split; [exact Hwf3|lia]]].
  - rewrite Hh3, Hh2, Hh1, <- app_assoc. reflexivity.
  - intros x y. rewrite Hcells3, Hcells2, Hnone, Hh2, Hh1.
    rewrite length_app. simpl.
    replace (length (heap w) + 1)%nat with (S (length (heap w))) by lia.
    destruct (decide (x = x1 /\ y = y1)) as [[E1 E2]|N1];
      destruct (decide (x = x2 /\ y = y2)) as [[E3 E4]|N2];
      try reflexivity.
    exfalso. apply Hne. congruence.
Qed.


(** ** The frame function and the frame loop *)

Lemma kept_in_row_refl b : kept_in_row b b.
Proof. split; [reflexivity|apply doubled_refl]. Qed.

Lemma kept_in_row_trans a b c :
  kept_in_row a b -> kept_in_row b c -> kept_in_row a c.
Proof.
  intros [H1 H2] [H3 H4]. split; [congruence|].
  eapply doubled_trans; eauto.
Qed.

Lemma kept_in_row_update delta b : kept_in_row b (Block_update delta b).
Proof.
  unfold Block_update. destruct (Qle_bool 1 delta);
    (split; [reflexivity|exists 0%nat; reflexivity]).
Qed.

Lemma moved_left_kept b b' : moved_left b b' -> kept_in_row b b'.
Proof.
  intros (_ & _ & H & _ & _ & _ & _ & k & Hk & _).
  split; [exact H|]. exists k. exact Hk.
Qed.

Lemma moved_right_kept c b b' : moved_right c b b' -> kept_in_row b b'.
Proof.
  intros (_ & _ & H & _ & _ & _ & _ & k & Hk & _).
  split; [exact H|]. exists k. exact Hk.
Qed.

Lemma related_impl (R R' : Block -> Block -> Prop) w w' :
  (forall b b', R b b' -> R' b b') -> related R w w' -> related R' w w'.
Proof.
  intros H (Hc & Hr & HF). repeat split; try assumption.
  eapply Forall2_impl; eauto.
Qed.

Lemma dispatch_safe a w :
  wf_world w ->
  exists w', dispatch a w = Ok tt w' /\ wf_world w' /\
             related kept_in_row w w'.
Proof.
  intros Hwf.
  assert (HL : exists w', Board_moveLeft w = Ok tt w' /\ wf_world w' /\
                          related kept_in_row w w').
  { destruct (Board_moveLeft_wf w Hwf) as (w' & Hrun & Hwf' & Hrel & _).
    exists w'. split; [exact Hrun|]. split; [exact Hwf'|].
    eapply related_impl; [|exact Hrel]. apply moved_left_kept. }
  destruct a; simpl; try exact HL.
  - exists w. split; [reflexivity|]. split; [exact Hwf|].
    apply related_refl, kept_in_row_refl.
  - destruct (Board_moveRight_wf w Hwf) as (w' & Hrun & Hwf' & Hrel & _).
    exists w'. split; [exact Hrun|]. split; [exact Hwf'|].
    eapply related_impl; [|exact Hrel]. apply moved_right_kept.
Qed.

Lemma draw_wf (d : Driver) (w : World) :
  wf_world w ->
  exists d' w',
    draw d w = Ok d' w' /\ wf_world w' /\ related kept_in_row w w' /\
    ((action d <> IDLE /\ d' = mkDriver 0%Q IDLE /\
      exists t w1, Board_update t w = Ok tt w1 /\
                   dispatch (action d) w1 = Ok tt w') \/
     (action d' = action d /\ exists t, Board_update t w = Ok tt w')).
Proof.
  intros Hwf. unfold draw.
  destruct (Board_update_wf (delta d + (1 # 10))%Q w Hwf)
    as (w1 & Hup & Hbd & Hwf1 & _).
  assert (Hrel1 : related kept_in_row w w1).
  { destruct (runs_update kept_in_row (delta d + (1 # 10))%Q
                kept_in_row_refl kept_in_row_trans
                (kept_in_row_update _) w) as (w1' & F & Hrel).
    rewrite Hup in F. injection F as <-. exact Hrel. }
  unfold bind at 1. rewrite Hup.
  destruct (negb (Qle_bool (delta d + (1 # 10)) 1) &&
            negb (is_idle (action d))) eqn:Hmove.
  - apply andb_true_iff in Hmove. destruct Hmove as [_ Hact].
    destruct (dispatch_safe (action d) w1 Hwf1) as (w2 & Hrun & Hwf2 & Hrel2).
    exists (mkDriver 0%Q IDLE), w2. unfold bind. rewrite Hrun.
    split; [reflexivity|]. split; [exact Hwf2|]. split.
    + eapply related_trans; [exact kept_in_row_trans|exact Hrel1|exact Hrel2].
    + left. split; [|split; [reflexivity|eauto]].
      intros E. rewrite E in Hact. discriminate Hact.
  - eexists. exists w1. split; [reflexivity|]. split; [exact Hwf1|].
    split; [exact Hrel1|]. right. simpl. eauto.
Qed.


Lemma frames_wf (events : list (list String.string)) (d : Driver)
    (w : World) :
  wf_world w ->
  exists d' w',
    frames events d w = Ok d' w' /\ wf_world w' /\
    related kept_in_row w w' /\ length (heap w') = length (heap w).
Proof.
  revert d w. induction events as [|keys rest IH]; intros d w Hwf; simpl.
  - exists d, w. split; [reflexivity|]. split; [exact Hwf|].
    split; [apply related_refl, kept_in_row_refl|reflexivity].
  - destruct (draw_wf
                (mkDriver (delta d)
                   (foldl (fun a key => keydown key a) (action d) keys))
                w Hwf) as (d1 & w1 & Hrun & Hwf1 & Hrel1 & _).
    destruct (IH d1 w1 Hwf1) as (d2 & w2 & Hrun2 & Hwf2 & Hrel2 & Hlen).
    exists d2, w2. unfold bind. rewrite Hrun. split; [exact Hrun2|].
    split; [exact Hwf2|]. split.
    + eapply related_trans; [exact kept_in_row_trans|exact Hrel1|exact Hrel2].
    + rewrite Hlen. destruct Hrel1 as (_ & _ & HF).
      symmetry. eapply Forall2_length, HF.
Qed.

(** X13: the frame loop never throws, whatever keys are pressed and however
    many frames run: from a well-formed world it returns in a well-formed
    world with the same number of blocks (no block is spawned after
    [start]), every block still has the row of its target, and its value
    is its old value doubled some number of times, as binary64 doubles it:
    once a doubling overflows the value is [Infinity] and stays so. *)
Theorem frames_safe (events : list (list String.string)) (d : Driver)
    (w : World) :
  wf_world w ->
  exists d' w',
    frames events d w = Ok d' w' /\ wf_world w' /\
    related kept_in_row w w' /\ length (heap w') = length (heap w).
Proof. apply frames_wf. Qed.

(** ** Block.show after Block.update *)

Lemma offset_lerp (g t : Z) (delta : Q) :
  (inject_Z (g * blockSize) +
   - lerp 0 (inject_Z ((g - t) * blockSize)) delta ==
   lerp (inject_Z (g * blockSize)) (inject_Z (t * blockSize)) delta)%Q.
Proof.
  unfold lerp, Z.sub.
  rewrite !inject_Z_mult, inject_Z_plus, inject_Z_opp. ring.
Qed.

(** X15: what [show()] draws right after [update(delta)].  While
    [delta < 1] the rectangle is at the linear interpolation, by [lerp],
    between the pixel position of the grid cell and that of the target
    cell; from [delta >= 1] on it is exactly at the target cell.  The
    rectangle is [blockSize] wide and high, and the text, the value of
    the block, is at its centre. *)
Theorem shown_position_interpolates (b : Block) (delta : Q) :
  match Block_show (Block_update delta b) with
  | [fillRect x y w h; fillText text tx ty] =>
      w = inject_Z blockSize /\ h = inject_Z blockSize /\
      text = value b /\
      (tx == x + inject_Z blockSize / 2)%Q /\
      (ty == y + inject_Z blockSize / 2)%Q /\
      if Qle_bool 1 delta then
        (x == inject_Z (targetX b * blockSize))%Q /\
        (y == inject_Z (targetY b * blockSize))%Q
      else
        (x == lerp (inject_Z (gridX b * blockSize))
                   (inject_Z (targetX b * blockSize)) delta)%Q /\
        (y == lerp (inject_Z (gridY b * blockSize))
                   (inject_Z (targetY b * blockSize)) delta)%Q
  | _ => False
  end.
Proof.
  unfold Block_show.
  split; [reflexivity|]. split; [reflexivity|].
  split; [unfold Block_update; destruct (Qle_bool 1 delta); reflexivity|].
  split; [ring|]. split; [ring|].
  unfold Block_update. destruct (Qle_bool 1 delta); simpl.
  - split; ring.
  - split; apply offset_lerp.
Qed.

(** ** The constructor and Board.block *)

Lemma Board_new_shape (c r : Z) (h : list Block) :
  0 <= c -> 0 <= r ->
  wf_board (Board_new c r) /\
  (forall x y, cell (mkWorld h (Board_new c r)) x y = None) /\
  (forall x y, 0 <= x < c -> 0 <= y < r ->
     Board_block_get x y (mkWorld h (Board_new c r))
     = Ok None (mkWorld h (Board_new c r))) /\
  wf_world (mkWorld [] (Board_new c r)).
Proof.
  intros Hc Hr.
  assert (Hwf : wf_board (Board_new c r)).
  { unfold wf_board, Board_new. simpl. split; [exact Hc|].
    split; [exact Hr|]. split; [apply length_replicate|].
    apply Forall_replicate, length_replicate. }
  assert (Hcell : forall h' x y, cell (mkWorld h' (Board_new c r)) x y = None).
  { intros h' x y. unfold cell, js_get. simpl.
    destruct (x <? 0); [reflexivity|].
    destruct (replicate (Z.to_nat c) (replicate (Z.to_nat r) None)
              !! Z.to_nat x) as [col|] eqn:E; [|reflexivity].
    apply lookup_replicate in E. destruct E as [-> _]. simpl.
    destruct (y <? 0); [reflexivity|].
    destruct (replicate (Z.to_nat r) (@None ref) !! Z.to_nat y) as [v|] eqn:E;
      [|reflexivity].
    apply lookup_replicate in E. destruct E as [-> _]. reflexivity. }
  split; [exact Hwf|]. split; [apply Hcell|]. split.
  - intros x y Hx Hy.
    rewrite Board_block_get_in_range by (simpl; assumption).
    rewrite Hcell. reflexivity.
  - split; [exact Hwf|]. split; [constructor|].
    intros x y r0. rewrite Hcell. discriminate.
Qed.

(** X1: [new Board(c, r)] has [c] columns of [r] cells, all empty, so
    [block(x, y)] returns nothing at every position on the board; without
    blocks it is a well-formed world. *)
Theorem Board_new_empty (c r : Z) (h : list Block) :
  0 <= c -> 0 <= r ->
  wf_board (Board_new c r) /\
  (forall x y, cell (mkWorld h (Board_new c r)) x y = None) /\
  (forall x y, 0 <= x < c -> 0 <= y < r ->
     Board_block_get x y (mkWorld h (Board_new c r))
     = Ok None (mkWorld h (Board_new c r))) /\
  wf_world (mkWorld [] (Board_new c r)).
Proof. apply Board_new_shape. Qed.

(** X2: [block(x, y, b)] on a board of the constructor's shape.  Inside
    the board it returns, [block(x, y)] then returns [b], and every other
    cell, the store and the shape of the board are as before; outside the
    board it throws the range error of the first coordinate out of range
    and changes nothing. *)
Theorem block_set_then_get (x y : Z) (b : ref) (w : World) :
  wf_board (board w) ->
  (0 <= x < cols (board w) -> 0 <= y < rows (board w) ->
   exists w',
     Board_block_set x y b w = Ok tt w' /\
     Board_block_get x y w' = Ok (Some b) w' /\
     (forall x' y', (x', y') <> (x, y) -> cell w' x' y' = cell w x' y') /\
     heap w' = heap w /\ wf_board (board w') /\
     cols (board w') = cols (board w) /\ rows (board w') = rows (board w)) /\
  (x < 0 \/ cols (board w) <= x ->
   Board_block_set x y b w = Throw (RangeError x 0 (cols (board w))) w) /\
  (0 <= x < cols (board w) -> y < 0 \/ rows (board w) <= y ->
   Board_block_set x y b w = Throw (RangeError y 0 (rows (board w))) w).
Proof.
  intros Hwf. split; [|split].
  - intros Hx Hy.
    destruct (cell_write_in_range x y (Some b) w Hwf Hx Hy)
      as (w' & Hw & Hh & Hc & Hr & Hwf' & Hcells).
    exists w'. split.
    { unfold Board_block_set, bind.
      rewrite assertRange_ok by lia. rewrite assertRange_ok by lia.
      exact Hw. }
    split.
    { rewrite Board_block_get_in_range; [|exact Hwf'|lia|lia].
      rewrite Hcells, decide_True by auto. reflexivity. }
    split; [|auto].
    intros x' y' Hne. rewrite Hcells. rewrite decide_False; [reflexivity|].
    intros [-> ->]. apply Hne. reflexivity.
  - intros Hx. unfold Board_block_set, bind.
    rewrite assertRange_out by lia. reflexivity.
  - intros Hx Hy. unfold Board_block_set, bind.
    rewrite assertRange_ok by lia. rewrite assertRange_out by lia.
    reflexivity.
Qed.

(** ** Sliding *)

Lemma with_target_same b : with_target b (targetX b) (value b) = b.
Proof. destruct b. reflexivity. Qed.

Lemma with_target_twice b tx v tx' v' :
  with_target (with_target b tx v) tx' v' = with_target b tx' v'.
Proof. reflexivity. Qed.

Lemma moveLeft_loop_slide fuel (this : ref) b s w :
  wf_world w -> heap w !! this = Some b ->
  0 <= s <= targetX b ->
  (forall x, s <= x < targetX b -> cell w x (gridY b) = None) ->
  (s = 0 \/ exists (t : ref) tb, cell w (s - 1) (gridY b) = Some t /\
                       heap w !! t = Some tb /\ value tb <> value b) ->
  (Z.to_nat (targetX b) <= fuel)%nat ->
  moveLeft_loop fuel this w =
  Ok tt (mkWorld (<[this := with_target b s (value b)]> (heap w)) (board w)).
Proof.
  revert b w. induction fuel as [|fuel IH];
    intros b w Hwf Hb Hs Hempty Hstop Hfuel.
  - assert (s = targetX b) as -> by lia.
    simpl. unfold bind, load. rewrite Hb.
    destruct (0 <? targetX b) eqn:E; [lia|].
    rewrite with_target_same, store_same by exact Hb. reflexivity.
  - assert (Hin : in_grid (board w) b).
    { destruct Hwf as (_ & Hg & _). rewrite Forall_forall in Hg.
      apply Hg. eapply list_elem_of_lookup_2, Hb. }
    destruct Hin as (G1 & G2 & G3 & G4).
    simpl. unfold bind at 1. unfold load at 1. rewrite Hb.
    destruct (0 <? targetX b) eqn:E.
    + unfold bind at 1.
      rewrite Board_block_get_in_range by (try apply Hwf; lia).
      destruct (decide (s = targetX b)) as [Heq|Hne].
      * destruct Hstop as [->|(t & tb & Hc & Ht & Hv)]; [lia|].
        rewrite <- Heq, Hc. cbv beta iota.
        unfold bind at 1. unfold load at 1. rewrite Ht.
        destruct (value tb =? value b) eqn:Ev; [lia|].
        rewrite Heq, with_target_same, store_same by exact Hb. reflexivity.
      * rewrite Hempty by lia. cbv beta iota.
        unfold bind at 1. unfold store at 1.
        rewrite (IH (with_target b (targetX b - 1) (value b))).
        -- simpl. rewrite list_insert_insert_eq. reflexivity.
        -- apply wf_world_store; [exact Hwf|]. repeat split; simpl; lia.
        -- simpl. apply (lookup_stored _ _ b), Hb.
        -- simpl. lia.
        -- simpl. intros x Hx. apply Hempty. lia.
        -- destruct Hstop as [->|(t & tb & Hc & Ht & Hv)]; [auto|].
           right. exists t, tb. simpl. split; [exact Hc|]. split; [|exact Hv].
           rewrite list_lookup_insert_ne; [exact Ht|].
           intros <-. rewrite Hb in Ht. injection Ht as <-. congruence.
        -- simpl. lia.
    + assert (s = targetX b) as -> by lia.
      rewrite with_target_same, store_same by exact Hb. reflexivity.
Qed.

(** X3: [Block.moveLeft] slides a tile over empty cells.  If the cells of
    its row from column [s] up to its target column are empty, and [s] is
    the wall or the cell before [s] holds a tile of another value, the
    tile ends with target column [s] and its value unchanged, the cell
    [(s, targetY)] references it, and nothing else changes. *)
Theorem Block_moveLeft_slides (this : ref) (b : Block) (s : Z) (w : World) :
  wf_world w -> heap w !! this = Some b ->
  0 <= s <= targetX b ->
  (forall x, s <= x < targetX b -> cell w x (gridY b) = None) ->
  (s = 0 \/ exists (t : ref) tb, cell w (s - 1) (gridY b) = Some t /\
                       heap w !! t = Some tb /\ value tb <> value b) ->
  exists w',
    Block_moveLeft this w = Ok tt w' /\
    heap w' = <[this := with_target b s (value b)]> (heap w) /\
    forall x y, cell w' x y =
                if decide (x = s /\ y = targetY b) then Some this
                else cell w x y.
Proof.
  intros Hwf Hb Hs Hempty Hstop.
  pose proof (moveLeft_loop_slide (Z.to_nat (targetX b)) this b s w
                Hwf Hb Hs Hempty Hstop (Nat.le_refl _)) as Hloop.
  set (b' := with_target b s (value b)) in *.
  set (w1 := mkWorld (<[this := b']> (heap w)) (board w)) in *.
  assert (Hb1 : heap w1 !! this = Some b') by (apply (lookup_stored _ _ b), Hb).
  assert (Hwf1 : wf_world w1).
  { apply wf_world_store; [exact Hwf|].
    destruct Hwf as (_ & Hg & _). rewrite Forall_forall in Hg.
    destruct (Hg b (list_elem_of_lookup_2 _ _ _ Hb)) as (G1 & G2 & G3 & G4).
    repeat split; simpl; lia. }
  destruct (move_finish_spec this b' w1 Hwf1 Hb1)
    as (w' & Hf & Hh & _ & _ & _ & Hcell).
  exists w'. split; [|split; [exact Hh|exact Hcell]].
  rewrite (Block_moveLeft_unfold this b w Hb). unfold bind.
  rewrite Hloop. exact Hf.
Qed.

Lemma moveRight_loop_slide fuel (this : ref) b s w :
  wf_world w -> heap w !! this = Some b ->
  targetX b <= s <= cols (board w) - 1 ->
  (forall x, targetX b < x <= s -> cell w x (gridY b) = None) ->
  (s = cols (board w) - 1 \/
   exists (t : ref) tb, cell w (s + 1) (gridY b) = Some t /\
                        heap w !! t = Some tb /\ value tb <> value b) ->
  (Z.to_nat (cols (board w) - 1 - targetX b) <= fuel)%nat ->
  moveRight_loop fuel this w =
  Ok tt (mkWorld (<[this := with_target b s (value b)]> (heap w)) (board w)).
Proof.
  revert b w. induction fuel as [|fuel IH];
    intros b w Hwf Hb Hs Hempty Hstop Hfuel.
  - assert (s = targetX b) as -> by lia.
    simpl. unfold bind, load. rewrite Hb.
    destruct (targetX b <? cols (board w) - 1) eqn:E; [lia|].
    rewrite with_target_same, store_same by exact Hb. reflexivity.
  - assert (Hin : in_grid (board w) b).
    { destruct Hwf as (_ & Hg & _). rewrite Forall_forall in Hg.
      apply Hg. eapply list_elem_of_lookup_2, Hb. }
    destruct Hin as (G1 & G2 & G3 & G4).
    simpl. unfold bind at 1. unfold load at 1. rewrite Hb.
    destruct (targetX b <? cols (board w) - 1) eqn:E.
    + unfold bind at 1.
      rewrite Board_block_get_in_range by (try apply Hwf; lia).
      destruct (decide (s = targetX b)) as [Heq|Hne].
      * destruct Hstop as [->|(t & tb & Hc & Ht & Hv)]; [lia|].
        rewrite <- Heq, Hc. cbv beta iota.
        unfold bind at 1. unfold load at 1. rewrite Ht.
        destruct (value tb =? value b) eqn:Ev; [lia|].
        rewrite Heq, with_target_same, store_same by exact Hb. reflexivity.
      * rewrite Hempty by lia. cbv beta iota.
        unfold bind at 1. unfold store at 1.
        rewrite (IH (with_target b (targetX b + 1) (value b))).
        -- simpl. rewrite list_insert_insert_eq. reflexivity.
        -- apply wf_world_store; [exact Hwf|]. repeat split; simpl; lia.
        -- simpl. apply (lookup_stored _ _ b), Hb.
        -- simpl. lia.
        -- simpl. intros x Hx. apply Hempty. lia.
        -- destruct Hstop as [->|(t & tb & Hc & Ht & Hv)]; [auto|].
           right. exists t, tb. simpl. split; [exact Hc|]. split; [|exact Hv].
           rewrite list_lookup_insert_ne; [exact Ht|].
           intros <-. rewrite Hb in Ht. injection Ht as <-. congruence.
        -- simpl. lia.
    + assert (s = targetX b) as -> by lia.
      rewrite with_target_same, store_same by exact Hb. reflexivity.
Qed.

(** X4: [Block.moveRight] slides a tile over empty cells, as
    [Block.moveLeft] does toward the other wall: if the cells of its row
    after its target column up to column [s] are empty, and [s] is the
    last column or the cell after [s] holds a tile of another value, the
    tile ends with target column [s] and its value unchanged, the cell
    [(s, targetY)] references it, and nothing else changes. *)
Theorem Block_moveRight_slides (this : ref) (b : Block) (s : Z) (w : World) :
  wf_world w -> heap w !! this = Some b ->
  targetX b <= s <= cols (board w) - 1 ->
  (forall x, targetX b < x <= s -> cell w x (gridY b) = None) ->
  (s = cols (board w) - 1 \/
   exists (t : ref) tb, cell w (s + 1) (gridY b) = Some t /\
                        heap w !! t = Some tb /\ value tb <> value b) ->
  exists w',
    Block_moveRight this w = Ok tt w' /\
    heap w' = <[this := with_target b s (value b)]> (heap w) /\
    forall x y, cell w' x y =
                if decide (x = s /\ y = targetY b) then Some this
                else cell w x y.
Proof.
  intros Hwf Hb Hs Hempty Hstop.
  pose proof (moveRight_loop_slide
                (Z.to_nat (cols (board w) - 1 - targetX b)) this b s w
                Hwf Hb Hs Hempty Hstop (Nat.le_refl _)) as Hloop.
  set (b' := with_target b s (value b)) in *.
  set (w1 := mkWorld (<[this := b']> (heap w)) (board w)) in *.
  assert (Hb1 : heap w1 !! this = Some b') by (apply (lookup_stored _ _ b), Hb).
  assert (Hwf1 : wf_world w1).
  { apply wf_world_store; [exact Hwf|].
    destruct Hwf as (_ & Hg & _). rewrite Forall_forall in Hg.
    destruct (Hg b (list_elem_of_lookup_2 _ _ _ Hb)) as (G1 & G2 & G3 & G4).
    repeat split; simpl; lia. }
  destruct (move_finish_spec this b' w1 Hwf1 Hb1)
    as (w' & Hf & Hh & _ & _ & _ & Hcell).
  exists w'. split; [|split; [exact Hh|exact Hcell]].
  unfold Block_moveRight. unfold bind at 1. unfold load at 1.
  rewrite Hb. unfold bind at 1. rewrite Hloop. exact Hf.
Qed.

(** ** The end of a transition and the whole program *)

(** X8: when the transition completes, that is after [Board.update(delta)]
    with [delta >= 1] on a well-formed world, every block that a cell
    references is at rest: its grid position is its target position and
    its offset is zero. *)
Theorem Board_update_settles (delta : Q) (w : World) :
  wf_world w -> Qle_bool 1 delta = true ->
  exists w',
    Board_update delta w = Ok tt w' /\
    forall x y (r : ref), cell w' x y = Some r ->
      exists b', heap w' !! r = Some b' /\ settled b' /\ offset_zero b'.
Proof.
  intros Hwf Hd.
  destruct (Board_update_wf delta w Hwf) as (w' & Hrun & Hbd & Hwf' & Hspec).
  exists w'. split; [exact Hrun|]. intros x y r Hc.
  assert (Hc0 : cell w x y = Some r)
    by (unfold cell in *; rewrite <- Hbd; exact Hc).
  destruct (cell_in_range x y r w (proj1 Hwf) Hc0) as [Hx Hy].
  destruct (wf_world_load r w Hwf) as (b & Hb & _).
  { destruct Hwf as (_ & _ & Hr). eapply Hr, Hc0. }
  exists (Block_update delta b). split.
  - apply (Hspec r b Hb). exists x, y. auto.
  - unfold Block_update. rewrite Hd. simpl.
    repeat split; reflexivity.
Qed.

Lemma initial_world_wf : wf_world initial_world.
Proof. apply (Board_new_shape 4 4 []); lia. Qed.

(** X14: the program as a whole, [new Board(4, 4)], [start()] and then any
    number of frames with any keys pressed, never throws for random
    numbers in [0, 1): if [start] returns, the frames return, the world is
    well-formed and the store holds exactly the two blocks [start]
    created. *)
Theorem program_safe (fuel : nat) (rnd : nat -> Q)
    (events : list (list String.string)) :
  unit_interval rnd ->
  match Board_start fuel rnd 0 initial_world with
  | Ok _ w0 =>
      exists d w',
        frames events (mkDriver 0%Q IDLE) w0 = Ok d w' /\
        wf_world w' /\ length (heap w') = 2%nat
  | Throw _ _ => False
  | Diverge => True
  end.
Proof.
  intros Hrnd.
  pose proof (Board_start_wf fuel rnd 0 initial_world initial_world_wf)
    as Hs.
  specialize (Hs ltac:(reflexivity) ltac:(reflexivity) Hrnd).
  destruct (Board_start fuel rnd 0 initial_world) as [j w0|e w0|];
    [|exact Hs|exact I].
  destruct Hs as (x1 & y1 & v1 & x2 & y2 & v2 & _ & _ & _ & _ & _ & _ & _ & _ &
                  Hh & _ & Hwf0 & _).
  destruct (frames_wf events (mkDriver 0%Q IDLE) w0 Hwf0)
    as (d & w' & Hrun & Hwf' & _ & Hlen).
  exists d, w'. split; [exact Hrun|]. split; [exact Hwf'|].
  rewrite Hlen, Hh. reflexivity.
Qed.

(** ** The keyboard *)

Lemma keydown_up key a : keydown key a = MOVE_UP -> a = MOVE_UP.
Proof.
  unfold keydown.
  destruct (String.eqb key _); [discriminate|].
  destruct (String.eqb key _); [discriminate|].
  destruct (String.eqb key _); [discriminate|].
  destruct (String.eqb key _); [discriminate|]. auto.
Qed.

Lemma keydown_other key a :
  key <> keys_left -> key <> keys_right -> key <> keys_up ->
  key <> keys_down -> keydown key a = a.
Proof.
  intros H1 H2 H3 H4. unfold keydown.
  apply String.eqb_neq in H1, H2, H3, H4.
  unfold keys_left, keys_right, keys_up, keys_down in *.
  rewrite H1, H2, H3, H4. reflexivity.
Qed.

(** X16: no key makes the up action pending.  After any sequence of key
    events the pending action is [MOVE_UP] only if it was [MOVE_UP] before
    them: whatever action was pending, the listener sets [MOVE_LEFT] for
    the left arrow, [MOVE_RIGHT] for the right arrow and [MOVE_DOWN] for
    the up arrow as for the down arrow, and it leaves the action alone for
    every key that is not one of the four arrows. *)
Theorem keydown_never_sets_up (keys : list String.string) (a : Action) :
  a <> MOVE_UP ->
  foldl (fun a key => keydown key a) a keys <> MOVE_UP /\
  (forall a0, keydown keys_left a0 = MOVE_LEFT /\
              keydown keys_right a0 = MOVE_RIGHT /\
              keydown keys_up a0 = MOVE_DOWN /\
              keydown keys_down a0 = MOVE_DOWN) /\
  (forall key a0,
      key <> keys_left -> key <> keys_right -> key <> keys_up ->
      key <> keys_down -> keydown key a0 = a0).
Proof.
  intros Ha. split; [|split].
  - revert a Ha. induction keys as [|key keys IH]; intros a Ha; simpl.
    + exact Ha.
    + apply IH. intros H. apply Ha, (keydown_up key), H.
  - intros a0. repeat split; reflexivity.
  - apply keydown_other.
Qed.

Lemma keydown_never_sets_up_witness :
  foldl (fun a key => keydown key a) IDLE [keys_up; keys_x; keys_left]
  <> MOVE_UP /\
  (forall a0, keydown keys_left a0 = MOVE_LEFT /\
              keydown keys_right a0 = MOVE_RIGHT /\
              keydown keys_up a0 = MOVE_DOWN /\
              keydown keys_down a0 = MOVE_DOWN) /\
  (forall key a0,
      key <> keys_left -> key <> keys_right -> key <> keys_up ->
      key <> keys_down -> keydown key a0 = a0).
Proof.
  apply (keydown_never_sets_up [keys_up; keys_x; keys_left] IDLE).
  discriminate.
Defined.

(** ** Checking well-formedness by computation *)

Lemma wf_worldb_sound w : wf_worldb w = true -> wf_world w.
Proof.
  unfold wf_worldb. rewrite !andb_true_iff.
  intros [[[[[H1 H2] H3] H4] H5] H6].
  apply Z.leb_le in H1, H2. apply Nat.eqb_eq in H3.
  rewrite forallb_forall in H4, H5, H6.
  split; [|split].
  - split; [exact H1|]. split; [exact H2|]. split; [exact H3|].
    apply Forall_forall. intros col Hcol.
    apply Nat.eqb_eq, H4, list_elem_of_In, Hcol.
  - apply Forall_forall. intros b Hb.
    apply list_elem_of_In, H5 in Hb. unfold in_gridb in Hb.
    rewrite !andb_true_iff in Hb. unfold in_grid. lia.
  - intros x y r Hc. unfold cell, js_get in Hc.
    destruct (x <? 0); [discriminate|].
    destruct (blocks (board w) !! Z.to_nat x) as [col|] eqn:Ecol;
      [|discriminate].
    simpl in Hc. destruct (y <? 0); [discriminate|].
    destruct (col !! Z.to_nat y) as [c|] eqn:Ec; [|discriminate].
    simpl in Hc. subst c.
    apply list_elem_of_lookup_2, list_elem_of_In in Ecol, Ec.
    pose proof (H6 col Ecol) as Hall. rewrite forallb_forall in Hall.
    apply Nat.ltb_lt. exact (Hall (Some r) Ec).
Qed.

Lemma rnd_a_unit_interval : unit_interval rnd_a.
Proof.
  intros k. unfold rnd_a, rnd_of.
  do 6 (destruct k as [|k]; [split; [discriminate|reflexivity]|]).
  destruct k; split; [discriminate|reflexivity|discriminate|reflexivity].
Qed.

(** ** Witnesses of the further properties *)

Lemma Board_new_empty_witness :
  wf_board (Board_new 4 4) /\
  (forall x y, cell (mkWorld [] (Board_new 4 4)) x y = None) /\
  (forall x y, 0 <= x < 4 -> 0 <= y < 4 ->
     Board_block_get x y (mkWorld [] (Board_new 4 4))
     = Ok None (mkWorld [] (Board_new 4 4))) /\
  wf_world (mkWorld [] (Board_new 4 4)).
Proof. apply (Board_new_empty 4 4 []); lia. Defined.

Lemma block_set_then_get_witness :
  exists w',
    Board_block_set 1 0 0%nat (row_2_0_2_4 0) = Ok tt w' /\
    Board_block_get 1 0 w' = Ok (Some 0%nat) w' /\
    (forall x' y', (x', y') <> (1, 0) ->
                   cell w' x' y' = cell (row_2_0_2_4 0) x' y') /\
    heap w' = heap (row_2_0_2_4 0) /\ wf_board (board w') /\
    cols (board w') = cols (board (row_2_0_2_4 0)) /\
    rows (board w') = rows (board (row_2_0_2_4 0)).
Proof.
  apply (block_set_then_get 1 0 0%nat (row_2_0_2_4 0)).
  - apply wf_worldb_sound. vm_compute. reflexivity.
  - simpl. lia.
  - simpl. lia.
Defined.

Lemma Block_moveLeft_slides_witness :
  exists w',
    Block_moveLeft 1%nat row_4_0_0_2 = Ok tt w' /\
    heap w' = <[1%nat := with_target (mkBlock 2 3 0 3 0 0%Q 0%Q) 1 2]>
                (heap row_4_0_0_2) /\
    forall x y, cell w' x y =
                if decide (x = 1 /\ y = 0) then Some 1%nat
                else cell row_4_0_0_2 x y.
Proof.
  apply (Block_moveLeft_slides 1%nat (mkBlock 2 3 0 3 0 0%Q 0%Q) 1
           row_4_0_0_2).
  - apply wf_worldb_sound. vm_compute. reflexivity.
  - reflexivity.
  - simpl. lia.
  - simpl. intros x Hx.
    assert (E : x = 1 \/ x = 2) by lia. destruct E as [-> | ->]; reflexivity.
  - right. exists 0%nat, (mkBlock 4 0 0 0 0 0%Q 0%Q).
    split; [reflexivity|]. split; [reflexivity|]. simpl. lia.
Defined.

Lemma Block_moveRight_slides_witness :
  exists w',
    Block_moveRight 0%nat row_2_0_0_4 = Ok tt w' /\
    heap w' = <[0%nat := with_target (mkBlock 2 0 0 0 0 0%Q 0%Q) 2 2]>
                (heap row_2_0_0_4) /\
    forall x y, cell w' x y =
                if decide (x = 2 /\ y = 0) then Some 0%nat
                else cell row_2_0_0_4 x y.
Proof.
  apply (Block_moveRight_slides 0%nat (mkBlock 2 0 0 0 0 0%Q 0%Q) 2
           row_2_0_0_4).
  - apply wf_worldb_sound. vm_compute. reflexivity.
  - reflexivity.
  - simpl. lia.
  - simpl. intros x Hx.
    assert (E : x = 1 \/ x = 2) by lia. destruct E as [-> | ->]; reflexivity.
  - right. exists 1%nat, (mkBlock 4 3 0 3 0 0%Q 0%Q).
    split; [reflexivity|]. split; [reflexivity|]. simpl. lia.
Defined.

Lemma Board_moveLeft_safe_witness :
  exists w',
    Board_moveLeft (row_2_0_2_4 0) = Ok tt w' /\
    wf_world w' /\ related moved_left (row_2_0_2_4 0) w' /\
    cells_kept (row_2_0_2_4 0) w'.
Proof.
  apply (Board_moveLeft_safe (row_2_0_2_4 0)).
  apply wf_worldb_sound. vm_compute. reflexivity.
Defined.

Lemma Board_moveRight_safe_witness :
  exists w',
    Board_moveRight (row_2_0_2_4 0) = Ok tt w' /\
    wf_world w' /\
    related (moved_right (cols (board (row_2_0_2_4 0)))) (row_2_0_2_4 0) w' /\
    cells_kept (row_2_0_2_4 0) w'.
Proof.
  apply (Board_moveRight_safe (row_2_0_2_4 0)).
  apply wf_worldb_sound. vm_compute. reflexivity.
Defined.

Lemma Board_update_spec_witness :
  exists w',
    Board_update (1 # 2) (row_2_0_2_4 0) = Ok tt w' /\
    board w' = board (row_2_0_2_4 0) /\ wf_world w' /\
    forall (r : ref) b, heap (row_2_0_2_4 0) !! r = Some b ->
      (referenced (row_2_0_2_4 0) r ->
       heap w' !! r = Some (Block_update (1 # 2) b)) /\
      (~ referenced (row_2_0_2_4 0) r -> heap w' !! r = Some b).
Proof.
  apply (Board_update_spec (1 # 2) (row_2_0_2_4 0)).
  apply wf_worldb_sound. vm_compute. reflexivity.
Defined.

Lemma Board_update_settles_witness :
  exists w',
    Board_update 1 (row_2_0_2_4 0) = Ok tt w' /\
    forall x y (r : ref), cell w' x y = Some r ->
      exists b', heap w' !! r = Some b' /\ settled b' /\ offset_zero b'.
Proof.
  apply (Board_update_settles 1 (row_2_0_2_4 0)).
  - apply wf_worldb_sound. vm_compute. reflexivity.
  - reflexivity.
Defined.





Lemma frames_safe_witness :
  exists d' w',
    frames some_events (mkDriver 1 IDLE)
      (row_2_0_2_4 0) = Ok d' w' /\
    wf_world w' /\ related kept_in_row (row_2_0_2_4 0) w' /\
    length (heap w') = length (heap (row_2_0_2_4 0)).
Proof.
  apply (frames_safe some_events
           (mkDriver 1 IDLE) (row_2_0_2_4 0)).
  apply wf_worldb_sound. vm_compute. reflexivity.
Defined.

Lemma program_safe_witness :
  match Board_start 0 rnd_a 0 initial_world with
  | Ok _ w0 =>
      exists d w',
        frames some_events (mkDriver 0%Q IDLE) w0 = Ok d w' /\
        wf_world w' /\ length (heap w') = 2%nat
  | Throw _ _ => False
  | Diverge => True
  end.
Proof.
  apply (program_safe 0 rnd_a some_events).
  exact rnd_a_unit_interval.
Defined.
